(** * Steam Game Matchmaker: the matching engine and the recommendation glue

    A shallow embedding of [frontend/js/matching.js] (class [GameMatcher]) and
    of the two handlers of the application class [App] that store the match
    results and exchange them with the recommendation backend.  Line numbers
    in the comments are those of [matching.js] unless said otherwise.

    Conventions of the embedding.
    - A JavaScript array is a [list]; [arr.map f] is [f <$> arr], [arr.filter]
      is [filter], [arr.slice(0, n)] is [take n], [arr.length] is [length].
    - A field that may be absent from an object read from JSON is an [option];
      [None] is [undefined].  [e || d] on such a field is [default d e].
    - Reading a property of [undefined] throws a [TypeError]: functions that
      can do so return an [option], [None] being the thrown exception.
    - Numbers are exact integers [Z] plus [NaN] (see [JS.number]); the
      embedding is exact as long as the integers stay in the range where
      IEEE doubles are exact.
    - A [Set] or [Map] whose iteration order is observed is the list of its
      elements, respectively entries, in insertion order. *)

From Stdlib Require Import ZArith String Ascii.
From stdpp Require Import base option list gmap strings sorting pretty.

(** ** The JavaScript primitives the program uses *)

Module JS.

(** Number values: an integer or [NaN]. *)
Inductive number := Num (z : Z) | NaN.

Definition add (a b : number) : number :=
  match a, b with Num x, Num y => Num (x + y) | _, _ => NaN end.

Definition sub (a b : number) : number :=
  match a, b with Num x, Num y => Num (x - y) | _, _ => NaN end.

(** Reading a numeric field in an arithmetic context: [undefined] is [NaN]. *)
Definition ToNumber (v : option number) : number := default NaN v.

(** [Math.round(t / n)] for a positive count [n]: the nearest integer, a
    half rounding towards plus infinity. *)
Definition round_div (t : number) (n : nat) : number :=
  match t with
  | Num z => Num ((2 * z + Z.of_nat n) `div` (2 * Z.of_nat n))
  | NaN => NaN
  end.

(** [arr.find(p)]: the first element that satisfies [p]. *)
Definition find {A} (P : A → Prop) `{∀ x, Decision (P x)} (l : list A) : option A :=
  snd <$> list_find P l.

(** [arr.reduce(f, init)] for a callback that may throw. *)
Fixpoint reduce {A B} (f : B → A → option B) (init : B) (l : list A) : option B :=
  match l with
  | [] => Some init
  | x :: l' => acc ← f init x; reduce f acc l'
  end.

Section collections.
Context {K : Type} `{EqDecision K} {V : Type}.

(** [set.add(x)], [new Set(iterable)], on the insertion-ordered elements. *)
Definition Set_add (s : list K) (x : K) : list K :=
  if decide (x ∈ s) then s else s ++ [x].

Definition new_Set (l : list K) : list K := foldl Set_add [] l.

(** [map.has(k)], [map.get(k)], [map.set(k, v)], [new Map(entries)], on the
    insertion-ordered entries: [set] on a key already present replaces
    the value where the entry stands. *)
Definition Map_has (m : list (K * V)) (k : K) : bool := bool_decide (k ∈ m.*1).

Definition Map_get (m : list (K * V)) (k : K) : option V :=
  snd <$> find (λ e, e.1 = k) m.

Fixpoint Map_set (m : list (K * V)) (k : K) (v : V) : list (K * V) :=
  match m with
  | [] => [(k, v)]
  | e :: m' => if decide (e.1 = k) then (k, v) :: m' else e :: Map_set m' k v
  end.

Definition new_Map (entries : list (K * V)) : list (K * V) :=
  foldl (λ m e, Map_set m e.1 e.2) [] entries.

(** The value stored under [k] is updated where it stands, as a
    mutation of the object that [map.get(k)] returns. *)
Definition Map_alter (f : V → V) (m : list (K * V)) (k : K) : list (K * V) :=
  (λ e, if decide (e.1 = k) then (e.1, f e.2) else e) <$> m.
End collections.

(** [s.includes(word)]: [word] occurs in [s] as a substring. *)
Fixpoint includes (s word : string) : bool :=
  String.prefix word s
  || match s with
     | EmptyString => false
     | String _ s' => includes s' word
     end.

(** [s.toLowerCase()], on strings of ASCII characters. *)
Definition toLowerCase_char (c : ascii) : ascii :=
  let n := nat_of_ascii c in
  if (65 <=? n)%nat && (n <=? 90)%nat then ascii_of_nat (n + 32) else c.

Fixpoint toLowerCase (s : string) : string :=
  match s with
  | EmptyString => EmptyString
  | String c s' => String (toLowerCase_char c) (toLowerCase s')
  end.

(** [arr.sort(comparefn)].  The sort is stable, and [comparefn(a, b) > 0]
    asks for [b] before [a]; a [NaN] result counts as [0].  For a
    consistent comparator the result is determined, and the stable
    insertion below computes it; the language leaves the order open when
    the comparator is inconsistent, which the theorems never rely on. *)
Definition positive (v : number) : bool :=
  match v with Num z => bool_decide (0 < z)%Z | NaN => false end.

Fixpoint sort_insert {A} (comparefn : A → A → number) (x : A) (l : list A) : list A :=
  match l with
  | [] => [x]
  | y :: l' =>
      if positive (comparefn x y) then y :: sort_insert comparefn x l' else x :: l
  end.

Definition sort {A} (comparefn : A → A → number) (l : list A) : list A :=
  foldr (sort_insert comparefn) [] l.

(** [set.delete(x)] and [map.delete(k)]. *)
Definition Set_delete {K} `{EqDecision K} (s : list K) (x : K) : list K :=
  filter (λ y, y ≠ x) s.

Definition Map_delete {K V} `{EqDecision K} (m : list (K * V)) (k : K) : list (K * V) :=
  filter (λ e, e.1 ≠ k) m.

(** [s.trim()], on strings of ASCII characters: the white space and line
    terminators are the tab, the line feed, the vertical tab, the form feed,
    the carriage return and the space. *)
Definition isWhiteSpace (c : ascii) : bool :=
  let n := nat_of_ascii c in
  ((9 <=? n)%nat && (n <=? 13)%nat) || (n =? 32)%nat.

Fixpoint trimStart (s : string) : string :=
  match s with
  | EmptyString => EmptyString
  | String c s' => if isWhiteSpace c then trimStart s' else s
  end.

Fixpoint trimEnd (s : string) : string :=
  match s with
  | EmptyString => EmptyString
  | String c s' =>
      match trimEnd s' with
      | EmptyString => if isWhiteSpace c then EmptyString else String c EmptyString
      | t => String c t
      end
  end.

Definition trim (s : string) : string := trimEnd (trimStart s).

(** [s.match(/literal(group)/)]: the capture of the leftmost place where
    [literal] stands and [group], which reads what follows, succeeds. *)
Fixpoint stripPrefix (literal s : string) : option string :=
  match literal, s with
  | EmptyString, _ => Some s
  | String a literal', String b s' =>
      if decide (a = b) then stripPrefix literal' s' else None
  | String _ _, EmptyString => None
  end.

Fixpoint matchAfter (literal : string) (group : string → option string) (s : string)
    : option string :=
  match stripPrefix literal s ≫= group with
  | Some capture => Some capture
  | None =>
      match s with
      | EmptyString => None
      | String _ s' => matchAfter literal group s'
      end
  end.

End JS.

(** ** Data model *)

(** A game of a library, as the profile service returns it. *)
Module Game.
Record t := mk {
  appid : Z;
  name : option string;
  playtime_forever : option Z
}.
End Game.

(** A friend of the roster; [games] may be absent from a stored record. *)
Module Friend.
Record t := mk {
  steamId : string;
  name : string;
  games : option (list Game.t)
}.
End Friend.

(** An element of the result of [findCommonGames]: the fields of the game
    ([{...game}], nothing when [game] is [undefined]) and three added fields,
    which a game returned as it is does not carry. *)
Module CommonGame.
Record t := mk {
  game : option Game.t;
  totalPlaytime : option JS.number;
  averagePlaytime : option JS.number;
  ownerCount : option nat
}.

Definition appid (r : t) : option Z := Game.appid <$> game r.
Definition name (r : t) : option string := game r ≫= Game.name.
Definition playtime_forever (r : t) : option Z := game r ≫= Game.playtime_forever.

(** A game object returned unchanged. *)
Definition raw (g : Game.t) : t := mk (Some g) None None None.
End CommonGame.

(** The bookkeeping of [findAlmostMatchedGames] for one game. *)
Module Ownership.
Record t := mk {
  game : Game.t;
  owners : list string;
  missingOwners : list string
}.
End Ownership.

(** An element of the result of [findAlmostMatchedGames]. *)
Module AlmostMatched.
Record t := mk {
  game : Game.t;
  owners : list string;
  missingOwners : list string;
  ownerCount : nat
}.

Definition appid (r : t) : Z := Game.appid (game r).
Definition playtime_forever (r : t) : option Z := Game.playtime_forever (game r).
End AlmostMatched.

(** The store details of a game, when they were fetched. *)
Module GameDetails.
Record genre := mkGenre { description : string }.
Record t := mk { genres : option (list genre) }.
End GameDetails.

(** The bookkeeping of [analyzeSharedGenres] for one genre. *)
Module GenreData.
Record t := mk { count : nat; friends : list string }.
End GenreData.

(** An element of the result of [analyzeSharedGenres]. *)
Module SharedGenre.
Record t := mk { genre : string; count : nat; friends : list string }.
End SharedGenre.

(** ** [GameMatcher] *)

Module GameMatcher.

(** [friend.games || []] *)
Definition gamesOrEmpty (friend : Friend.t) : list Game.t :=
  default [] (Friend.games friend).

(** The [reduce] of [findCommonGames] (lines 32-35): the playtime of
    [appId] summed over the friends, each friend contributing the first
    record of the game in the library, [0] when there is none. *)
Definition totalPlaytimeOf (friends : list Friend.t) (appId : Z) : option JS.number :=
  JS.reduce (λ sum friend,
    games ← Friend.games friend;
    let friendGame := JS.find (λ g, Game.appid g = appId) games in
    Some (JS.add sum
            match friendGame with
            | Some g => JS.ToNumber (JS.Num <$> Game.playtime_forever g)
            | None => JS.Num 0
            end))
    (JS.Num 0) friends.

Definition byTotalPlaytime (a b : CommonGame.t) : JS.number :=
  JS.sub (JS.ToNumber (CommonGame.totalPlaytime b))
         (JS.ToNumber (CommonGame.totalPlaytime a)).

(** The intersection (lines 17-24): the ids of the first friend, in the
    order of the set built from the library, that every set has. *)
Definition commonAppIdsOf (friends : list Friend.t) (friend0 : Friend.t) : list Z :=
  let gameSetsByFriend :=
    (λ friend, JS.new_Set (Game.appid <$> gamesOrEmpty friend)) <$> friends in
  filter (λ appId, Forall (λ set, appId ∈ set) gameSetsByFriend)
         (JS.new_Set (Game.appid <$> gamesOrEmpty friend0)).

(** The callback that builds the result for one common id (lines 30-43). *)
Definition commonGameOf (friends : list Friend.t) (gameMap : list (Z * Game.t))
    (appId : Z) : option CommonGame.t :=
  let game := JS.Map_get gameMap appId in
  totalPlaytime ← totalPlaytimeOf friends appId;
  Some (CommonGame.mk game
          (Some totalPlaytime)
          (Some (JS.round_div totalPlaytime (length friends)))
          (Some (length friends))).

(** [findCommonGames] (lines 12-47).  With two friends or more the call
    throws when the first friend has no [games] array. *)
Definition findCommonGames (friends : list Friend.t) : option (list CommonGame.t) :=
  match friends with
  | [] => Some []
  | [friend] => Some (CommonGame.raw <$> gamesOrEmpty friend)
  | friend0 :: _ =>
      let commonAppIds := commonAppIdsOf friends friend0 in
      games0 ← Friend.games friend0;
      let gameMap := JS.new_Map ((λ g, (Game.appid g, g)) <$> games0) in
      commonGames ← mapM (commonGameOf friends gameMap) commonAppIds;
      Some (JS.sort byTotalPlaytime commonGames)
  end.

(** *** [findAlmostMatchedGames] (lines 54-99) *)

(** [gameOwnership.get(appid).owners.push(name)], for the loop over the
    libraries: the entry is created on the first sight of [appid], with the
    game record met there. *)
Definition recordOwner (friend : Friend.t)
    (gameOwnership : list (Z * Ownership.t)) (game : Game.t) : list (Z * Ownership.t) :=
  let gameOwnership :=
    if JS.Map_has gameOwnership (Game.appid game) then gameOwnership
    else JS.Map_set gameOwnership (Game.appid game) (Ownership.mk game [] []) in
  JS.Map_alter
    (λ data, Ownership.mk (Ownership.game data)
               (Ownership.owners data ++ [Friend.name friend])
               (Ownership.missingOwners data))
    gameOwnership (Game.appid game).

(** The second loop, for one entry: every friend whose name is not among
    the owners is pushed on [missingOwners]. *)
Definition findMissing (friends : list Friend.t) (data : Ownership.t) : Ownership.t :=
  foldl (λ data friend,
    if decide (Friend.name friend ∈ Ownership.owners data) then data
    else Ownership.mk (Ownership.game data) (Ownership.owners data)
           (Ownership.missingOwners data ++ [Friend.name friend]))
    data friends.

(** The first loop: the owners of every game of every library. *)
Definition recordOwners (friends : list Friend.t) : list (Z * Ownership.t) :=
  foldl (λ gameOwnership friend,
           foldl (recordOwner friend) gameOwnership (gamesOrEmpty friend))
        [] friends.

Definition gameOwnershipOf (friends : list Friend.t) : list (Z * Ownership.t) :=
  prod_map id (findMissing friends) <$> recordOwners friends.

Definition byPlaytime (a b : AlmostMatched.t) : JS.number :=
  JS.Num (default 0%Z (AlmostMatched.playtime_forever b)
          - default 0%Z (AlmostMatched.playtime_forever a)).

Definition findAlmostMatchedGames (friends : list Friend.t) : list AlmostMatched.t :=
  if bool_decide (length friends < 3) then []
  else
    let almostMatched :=
      (λ e, let data := e.2 in
            AlmostMatched.mk (Ownership.game data) (Ownership.owners data)
              (Ownership.missingOwners data) (length (Ownership.owners data)))
        <$> filter (λ e, length (Ownership.owners e.2) = length friends - 1)
                   (gameOwnershipOf friends) in
    JS.sort byPlaytime almostMatched.

(** *** [inferGenresFromName] (lines 157-179) *)

Definition keywords : list (string * list string) :=
  [ ("Action", ["action"; "shooter"; "fps"; "combat"; "fight"; "battle"; "war"]);
    ("Adventure", ["adventure"; "explore"; "quest"]);
    ("RPG", ["rpg"; "role-playing"; "fantasy"; "dragon"; "sword"]);
    ("Strategy", ["strategy"; "tactics"; "rts"; "civilization"; "command"]);
    ("Simulation", ["simulator"; "simulation"; "tycoon"; "manager"]);
    ("Sports", ["sports"; "football"; "soccer"; "basketball"; "racing"; "nba"; "fifa"]);
    ("Puzzle", ["puzzle"; "tetris"; "match"]);
    ("Horror", ["horror"; "scary"; "zombie"; "dead"; "evil"]);
    ("Multiplayer", ["multiplayer"; "online"; "coop"; "co-op"; "versus"]);
    ("Indie", ["indie"]) ]%string.

Definition inferGenresFromName (name : string) : list string :=
  (filter (λ e, Exists (λ word, JS.includes name word = true) e.2) keywords).*1.

(** *** [analyzeSharedGenres] (lines 107-152) *)

(** The body of the loop over a library: the genres of one game are added
    to [friendGenres], first those of the details, when there are details
    of the game, then those inferred from the lower-cased name. *)
Definition addGenresOfGame (gameDetails : option (gmap Z GameDetails.t))
    (friendGenres : list string) (game : Game.t) : list string :=
  let friendGenres :=
    match gameDetails ≫= (λ m, m !! Game.appid game) with
    | Some details =>
        foldl (λ s genre, JS.Set_add s (GameDetails.description genre))
              friendGenres (default [] (GameDetails.genres details))
    | None => friendGenres
    end in
  let gameName := JS.toLowerCase (default EmptyString (Game.name game)) in
  let basicGenres := inferGenresFromName gameName in
  foldl JS.Set_add friendGenres basicGenres.

Definition friendGenresOf (gameDetails : option (gmap Z GameDetails.t))
    (friend : Friend.t) : list string :=
  foldl (addGenresOfGame gameDetails) [] (gamesOrEmpty friend).

(** The body of the loop over [friendGenres]. *)
Definition countGenre (friend : Friend.t)
    (genreCounts : list (string * GenreData.t)) (genre : string)
    : list (string * GenreData.t) :=
  let genreCounts :=
    if JS.Map_has genreCounts genre then genreCounts
    else JS.Map_set genreCounts genre (GenreData.mk 0 []) in
  JS.Map_alter
    (λ data, GenreData.mk (S (GenreData.count data))
               (JS.Set_add (GenreData.friends data) (Friend.name friend)))
    genreCounts genre.

Definition genreCountsOf (gameDetails : option (gmap Z GameDetails.t))
    (friends : list Friend.t) : list (string * GenreData.t) :=
  foldl (λ genreCounts friend,
           foldl (countGenre friend) genreCounts (friendGenresOf gameDetails friend))
        [] friends.

Definition byCount (a b : SharedGenre.t) : JS.number :=
  JS.Num (Z.of_nat (SharedGenre.count b) - Z.of_nat (SharedGenre.count a)).

Definition analyzeSharedGenres (friends : list Friend.t)
    (gameDetails : option (gmap Z GameDetails.t)) : list SharedGenre.t :=
  let sharedGenres :=
    (λ e, SharedGenre.mk e.1 (GenreData.count e.2) (GenreData.friends e.2))
      <$> filter (λ e, length (GenreData.friends e.2) = length friends)
                 (genreCountsOf gameDetails friends) in
  JS.sort byCount sharedGenres.

(** *** [formatPlaytime] (lines 191-196) *)

(** The argument is a number of minutes, possibly [undefined] or [NaN];
    [Math.round(NaN)] is [NaN], which is not less than [1] and differs from
    [1]. *)
Definition formatPlaytime (minutes : option JS.number) : string :=
  match minutes with
  | Some (JS.Num m) =>
      if decide (m = 0%Z) then "Never played"
      else
        match JS.round_div (JS.Num m) 60 with
        | JS.Num hours =>
            if decide (hours < 1)%Z then "Less than 1 hour"
            else pretty hours +:+ " hour" +:+ (if decide (hours ≠ 1%Z) then "s" else "")
        | JS.NaN => "NaN hours"
        end
  | _ => "Never played"
  end.

End GameMatcher.

(** ** The application: storing the results, talking to the backend *)

(** An entry of [recommendations] in the reply of the backend, and the
    record the application renders. *)
Module RawRecommendation.
Record t := mk {
  name : option string;
  price : option string;
  overview : option string;
  reason : option string;
  player_count : option string;
  tags : option (list string)
}.
End RawRecommendation.

Module Recommendation.
Record t := mk {
  name : option string;
  price : option string;
  overview : option string;
  reason : option string;
  playerCount : option string;
  tags : option (list string)
}.
End Recommendation.

(** The JSON body posted to [/api/recommendations], and the parsed reply. *)
Module Request.
Record t := mk {
  common_games : list (option string);
  shared_genres : list string;
  friend_names : list string
}.
End Request.

Module Response.
Record t := mk {
  success : bool;
  recommendations : option (list RawRecommendation.t);
  error : option string
}.
End Response.

Module App.

(** The part of the state of [App] that the handlers below read and write. *)
Record t := mk {
  lastCommonGames : list CommonGame.t;
  lastSharedGenres : list SharedGenre.t
}.

(** The constructor. *)
Definition new : t := mk [] [].

(** [handleFindMatches] (lines 261-305 of the application script), for the
    selected friends [friends]: with fewer than two friends nothing happens;
    an exception of the matcher is caught before the results are stored. *)
Definition handleFindMatches (app : t) (friends : list Friend.t) : t :=
  if bool_decide (length friends < 2) then app
  else
    match GameMatcher.findCommonGames friends with
    | None => app
    | Some commonGames =>
        let sharedGenres := GameMatcher.analyzeSharedGenres friends None in
        mk commonGames sharedGenres
    end.

(** [handleGetAIRecommendations] (lines 310-341), up to the call of the
    backend: the body of the request, or [None] when the handler returns
    before it sends one. *)
Definition handleGetAIRecommendations_request (app : t) (friends : list Friend.t)
    : option Request.t :=
  if bool_decide (length friends < 2) then None
  else
    let friendNames := Friend.name <$> friends in
    let commonGameNames := CommonGame.name <$> take 10 (lastCommonGames app) in
    let genreNames := SharedGenre.genre <$> take 5 (lastSharedGenres app) in
    Some (Request.mk commonGameNames genreNames friendNames).

(** [handleGetAIRecommendations] (lines 347-363), from the parsed reply
    [data] on: the records handed to [renderAIRecommendations], or the
    message of the error that is thrown and reported. *)
Inductive outcome :=
| Rendered (recommendations : list Recommendation.t)
| Failed (message : string).

Definition handleGetAIRecommendations_response (data : Response.t) : outcome :=
  if negb (Response.success data) then
    Failed match Response.error data with
           | Some e => if decide (e = EmptyString) then "Unknown error"%string else e
           | None => "Unknown error"%string
           end
  else
    match Response.recommendations data with
    | None => Failed "TypeError"
    | Some recs =>
        Rendered ((λ rec, Recommendation.mk
                    (RawRecommendation.name rec)
                    (RawRecommendation.price rec)
                    (RawRecommendation.overview rec)
                    (RawRecommendation.reason rec)
                    (RawRecommendation.player_count rec)
                    (RawRecommendation.tags rec)) <$> recs)
    end.

End App.

(** ** [FriendsManager] ([frontend/js/friends.js]) *)

(** The two items that [save] writes to the local storage and [load] reads
    back, [None] for an item that is not there.  An item holds the value
    that [JSON.stringify] was given and that [JSON.parse] returns; the text
    between the two is not modelled, nor is an item that does not parse. *)
Module Storage.
Record t := mk {
  friends : option (list Friend.t);
  selected : option (list string)
}.
End Storage.

(** The roster is a [Map] from the Steam id to the friend record, the
    selection a [Set] of Steam ids.  Of a friend record only [steamId] is
    read here; [avatar] and [gameCount], which only the rendering reads, are
    not part of [Friend.t].  The [onUpdate] callback and the rendering are
    left out. *)
Module FriendsManager.

Record t := mk {
  friends : list (string * Friend.t);
  selected : list string
}.

(** The constructor (lines 7-11). *)
Definition new : t := mk [] [].

(** [hasFriend] (lines 89-91). *)
Definition hasFriend (m : t) (steamId : string) : bool :=
  JS.Map_has (friends m) steamId.

(** [addFriend] (lines 17-25): [None] is the thrown
    [Error('Friend already added')]. *)
Definition addFriend (m : t) (friendData : Friend.t) : option t :=
  if JS.Map_has (friends m) (Friend.steamId friendData) then None
  else Some (mk (JS.Map_set (friends m) (Friend.steamId friendData) friendData)
                (JS.Set_add (selected m) (Friend.steamId friendData))).

(** [removeFriend] (lines 31-35). *)
Definition removeFriend (m : t) (steamId : string) : t :=
  mk (JS.Map_delete (friends m) steamId) (JS.Set_delete (selected m) steamId).

(** [toggleSelection] (lines 40-47) and [isSelected] (lines 52-54). *)
Definition toggleSelection (m : t) (steamId : string) : t :=
  if bool_decide (steamId ∈ selected m)
  then mk (friends m) (JS.Set_delete (selected m) steamId)
  else mk (friends m) (JS.Set_add (selected m) steamId).

Definition isSelected (m : t) (steamId : string) : bool :=
  bool_decide (steamId ∈ selected m).

(** [getAllFriends] (lines 60-62), [getSelectedFriends] (lines 68-70),
    [getSelectedCount] (lines 75-77) and [getFriendCount] (lines 82-84). *)
Definition getAllFriends (m : t) : list Friend.t := (friends m).*2.

Definition getSelectedFriends (m : t) : list Friend.t :=
  filter (λ f, Friend.steamId f ∈ selected m) (getAllFriends m).

Definition getSelectedCount (m : t) : nat := length (selected m).

Definition getFriendCount (m : t) : nat := length (friends m).

(** [save] (lines 170-175). *)
Definition save (m : t) : Storage.t :=
  Storage.mk (Some (getAllFriends m)) (Some (selected m)).

(** [load] (lines 180-205): the stored friends are set in the roster under
    their Steam id; the stored selection is taken for the ids that the
    roster has, and without a stored selection every friend is selected. *)
Definition load (m : t) (storage : Storage.t) : t :=
  let friends :=
    match Storage.friends storage with
    | Some data =>
        foldl (λ friends friend, JS.Map_set friends (Friend.steamId friend) friend)
              (friends m) data
    | None => friends m
    end in
  let selected :=
    match Storage.selected storage with
    | Some selectedIds =>
        foldl (λ selected id,
                 if JS.Map_has friends id then JS.Set_add selected id else selected)
              (selected m) selectedIds
    | None => foldl (λ selected e, JS.Set_add selected e.1) (selected m) friends
    end in
  mk friends selected.

(** What the operations keep: every entry of the roster stands under the
    Steam id of its record, and every selected id is in the roster.  (That
    no key and no selected id is repeated is what [Map] and [Set] give.) *)
Definition consistent (m : t) : Prop :=
  NoDup (friends m).*1
  ∧ Forall (λ e, Friend.steamId e.2 = e.1) (friends m)
  ∧ NoDup (selected m)
  ∧ selected m ⊆ (friends m).*1.

End FriendsManager.

(** ** [SteamAPI]: reading what the user typed ([frontend/js/steam-api.js]) *)

Module SteamAPI.

(** [\d] *)
Definition isDigit (c : ascii) : bool :=
  let n := nat_of_ascii c in (48 <=? n)%nat && (n <=? 57)%nat.

Fixpoint allDigits (s : string) : bool :=
  match s with
  | EmptyString => true
  | String c s' => isDigit c && allDigits s'
  end.

(** [isSteamID64] (lines 47-49): [/^\d{17}$/.test(input)]. *)
Definition isSteamID64 (input : string) : bool :=
  (String.length input =? 17)%nat && allDigits input.

(** The group [([^\/]+)]: the longest run of characters other than the
    slash, which must not be empty. *)
Fixpoint notSlashRun (s : string) : string :=
  match s with
  | EmptyString => EmptyString
  | String c s' => if decide (c = "/"%char) then EmptyString else String c (notSlashRun s')
  end.

Definition vanityGroup (s : string) : option string :=
  let run := notSlashRun s in
  if decide (run = EmptyString) then None else Some run.

(** The group [(\d{17})]: seventeen digits. *)
Definition idGroup (s : string) : option string :=
  let digits := String.substring 0 17 s in
  if isSteamID64 digits then Some digits else None.

(** [getSteamID] (lines 54-75) up to the call of the Steam service: the id,
    when the input gives it, or the vanity name that [resolveVanityURL] is
    called with. *)
Inductive source :=
| Direct (steamId : string)
| Resolve (vanityUrl : string).

Definition getSteamID (input : string) : source :=
  let cleanInput := JS.trim input in
  if isSteamID64 cleanInput then Direct cleanInput
  else
    let vanityUrl :=
      match JS.matchAfter "steamcommunity.com/id/" vanityGroup cleanInput with
      | Some name => name
      | None => cleanInput
      end in
    match JS.matchAfter "steamcommunity.com/profiles/" idGroup cleanInput with
    | Some steamId => Direct steamId
    | None => Resolve vanityUrl
    end.

(** [getMultipleGameDetails] (lines 131-165).  The call of [getGameDetails]
    for the element at position [k] of [appIds] gives [getGameDetails k]:
    the details, or [None] when the call throws or gives [null].  Beside
    the map that is returned, the calls of [onProgress] and the number of
    waits between two batches are recorded. *)
Definition batchSize : nat := 5.

Record fetched := mkFetched {
  results : list (Z * GameDetails.t);
  progress : list (nat * nat);
  delays : nat
}.

Definition storeDetails (results : list (Z * GameDetails.t))
    (batchResult : Z * option GameDetails.t) : list (Z * GameDetails.t) :=
  match batchResult.2 with
  | Some details => JS.Map_set results batchResult.1 details
  | None => results
  end.

Fixpoint getMultipleGameDetails_from (fuel : nat)
    (getGameDetails : nat → option GameDetails.t) (appIds : list Z)
    (i : nat) (st : fetched) : fetched :=
  match fuel with
  | 0 => st
  | S fuel' =>
      if decide (i < length appIds) then
        let batch := take batchSize (drop i appIds) in
        let batchResults := imap (λ k appId, (appId, getGameDetails (i + k))) batch in
        let st' :=
          mkFetched
            (foldl storeDetails (results st) batchResults)
            (progress st ++ [(min (i + batchSize) (length appIds), length appIds)])
            (if decide (i + batchSize < length appIds) then S (delays st) else delays st) in
        getMultipleGameDetails_from fuel' getGameDetails appIds (i + batchSize) st'
      else st
  end.

Definition getMultipleGameDetails (getGameDetails : nat → option GameDetails.t)
    (appIds : list Z) : fetched :=
  getMultipleGameDetails_from (length appIds) getGameDetails appIds 0 (mkFetched [] [] 0).

End SteamAPI.

(** ** Notions the statements below are written with *)

Module Spec.

(** What the specification requires of a friend: the library is a
    sequence, and every game of it carries a playtime. *)
Definition has_library (friend : Friend.t) : Prop := is_Some (Friend.games friend).

Definition has_playtimes (friend : Friend.t) : Prop :=
  Forall (λ g, is_Some (Game.playtime_forever g)) (GameMatcher.gamesOrEmpty friend).

(** The set of application ids that a friend owns. *)
Definition owned (friend : Friend.t) : list Z :=
  Game.appid <$> GameMatcher.gamesOrEmpty friend.

(** The application ids of the input in the order in which they are met,
    friend after friend, and the position at which [a] is met first (the
    length of the list when it never is). *)
Definition encounter (friends : list Friend.t) : list Z := friends ≫= owned.

Fixpoint indexOf (a : Z) (l : list Z) : nat :=
  match l with
  | [] => 0
  | x :: l' => if decide (x = a) then 0 else S (indexOf a l')
  end.

(** [a] does not come after [b] in the order of the total playtime; both
    totals are numbers. *)
Definition total_ge (a b : CommonGame.t) : Prop :=
  ∃ x y, CommonGame.totalPlaytime a = Some (JS.Num x)
         ∧ CommonGame.totalPlaytime b = Some (JS.Num y) ∧ (y ≤ x)%Z.

(** The playtime of [appId] summed over the friends as the values stand:
    each friend contributes the playtime of the first record of the game in
    the library. *)
Definition plainPlaytime (appId : Z) (friend : Friend.t) : Z :=
  match JS.find (λ g, Game.appid g = appId) (GameMatcher.gamesOrEmpty friend) with
  | Some g => default 0%Z (Game.playtime_forever g)
  | None => 0%Z
  end.

Definition plainSum (friends : list Friend.t) (appId : Z) : Z :=
  foldr Z.add 0%Z (plainPlaytime appId <$> friends).

(** The sort key of [findAlmostMatchedGames]. *)
Definition playtimeKey (r : AlmostMatched.t) : Z :=
  default 0%Z (AlmostMatched.playtime_forever r).

(** The owners and the missing owners recorded for an application id in the
    bookkeeping of [findAlmostMatchedGames], none for an id without entry. *)
Definition ownersOf (gameOwnership : list (Z * Ownership.t)) (appId : Z) : list string :=
  from_option Ownership.owners [] (JS.Map_get gameOwnership appId).

Definition missingOf (gameOwnership : list (Z * Ownership.t)) (appId : Z) : list string :=
  from_option Ownership.missingOwners [] (JS.Map_get gameOwnership appId).

(** The name of a friend, once for every record of [appId] in the library. *)
Definition ownerEntries (appId : Z) (friend : Friend.t) : list string :=
  replicate (length (filter (λ g, Game.appid g = appId) (GameMatcher.gamesOrEmpty friend)))
            (Friend.name friend).

(** Defensive normalisation as the specification words it: a negative or
    missing playtime is replaced by [0]. *)
Definition clampGame (g : Game.t) : Game.t :=
  Game.mk (Game.appid g) (Game.name g)
          (Some (Z.max 0 (default 0%Z (Game.playtime_forever g)))).

Definition clamp (friend : Friend.t) : Friend.t :=
  Friend.mk (Friend.steamId friend) (Friend.name friend)
            (fmap (M:=list) clampGame <$> Friend.games friend).

(** The wrapping that the specification describes for a single friend. *)
Definition wrapped_single (g : Game.t) (r : CommonGame.t) : Prop :=
  CommonGame.game r = Some g
  ∧ CommonGame.ownerCount r = Some 1
  ∧ CommonGame.totalPlaytime r = JS.Num <$> Game.playtime_forever g
  ∧ CommonGame.averagePlaytime r = JS.Num <$> Game.playtime_forever g.

(** What the code returns for a single friend: the game as it is. *)
Definition unwrapped (g : Game.t) (r : CommonGame.t) : Prop :=
  CommonGame.game r = Some g
  ∧ CommonGame.ownerCount r = None
  ∧ CommonGame.totalPlaytime r = None
  ∧ CommonGame.averagePlaytime r = None.

(** The genres that [analyzeSharedGenres] attaches to one game. *)
Definition genresOfGame (gameDetails : option (gmap Z GameDetails.t)) (g : Game.t)
    : list string :=
  GameMatcher.addGenresOfGame gameDetails [] g.

(** The same genres in the order in which they are added, repetitions
    included. *)
Definition tagsOf (gameDetails : option (gmap Z GameDetails.t)) (g : Game.t)
    : list string :=
  match gameDetails ≫= (λ m, m !! Game.appid g) with
  | Some details => GameDetails.description <$> default [] (GameDetails.genres details)
  | None => []
  end
  ++ GameMatcher.inferGenresFromName
       (JS.toLowerCase (default EmptyString (Game.name g))).

(** The counter and the number of recorded friends of a genre in the
    bookkeeping of [analyzeSharedGenres], [0] for a genre without entry. *)
Definition countOf (genreCounts : list (string * GenreData.t)) (genre : string) : nat :=
  from_option GenreData.count 0 (JS.Map_get genreCounts genre).

Definition sizeOf (genreCounts : list (string * GenreData.t)) (genre : string) : nat :=
  from_option (λ data, length (GenreData.friends data)) 0 (JS.Map_get genreCounts genre).

(** The count of a shared genre as the specification words it: the number
    of games of the union of the libraries that are tagged with the genre;
    the union holds one record for each application id. *)
Definition unionOfLibraries (friends : list Friend.t) : list Game.t :=
  foldl (λ acc g, if decide (Game.appid g ∈ Game.appid <$> acc) then acc else acc ++ [g])
        [] (friends ≫= GameMatcher.gamesOrEmpty).

Definition gamesTagged (friends : list Friend.t)
    (gameDetails : option (gmap Z GameDetails.t)) (genre : string) : nat :=
  length (filter (λ g, genre ∈ genresOfGame gameDetails g) (unionOfLibraries friends)).

(** The number of friends who have a game tagged with the genre. *)
Definition friendsTagged (friends : list Friend.t)
    (gameDetails : option (gmap Z GameDetails.t)) (genre : string) : nat :=
  length (filter (λ friend, Exists (λ g, genre ∈ genresOfGame gameDetails g)
                                   (GameMatcher.gamesOrEmpty friend)) friends).

(** Two characters, two strings, that are the same up to the case of the
    letters [A]-[Z], [a]-[z]. *)
Definition toUpperCase_char (c : ascii) : ascii :=
  let n := nat_of_ascii c in
  if (97 <=? n)%nat && (n <=? 122)%nat then ascii_of_nat (n - 32) else c.

Definition same_letter (c c' : ascii) : bool :=
  bool_decide (c' = c) || bool_decide (c' = JS.toLowerCase_char c)
  || bool_decide (c' = toUpperCase_char c).

Fixpoint case_variant (s s' : string) : bool :=
  match s, s' with
  | EmptyString, EmptyString => true
  | String c r, String c' r' => same_letter c c' && case_variant r r'
  | _, _ => false
  end.

(** The game record kept for an application id in the bookkeeping of
    [findAlmostMatchedGames], and the names recorded for a genre in the
    bookkeeping of [analyzeSharedGenres]. *)
Definition recordOf (gameOwnership : list (Z * Ownership.t)) (appId : Z) : option Game.t :=
  Ownership.game <$> JS.Map_get gameOwnership appId.

Definition namesOf (genreCounts : list (string * GenreData.t)) (genre : string)
    : list string :=
  from_option GenreData.friends [] (JS.Map_get genreCounts genre).

(** Every game record of the input, friend after friend, and the genres of
    the friends in the order in which the counting loop meets them. *)
Definition allGames (friends : list Friend.t) : list Game.t :=
  friends ≫= GameMatcher.gamesOrEmpty.

Definition genreEncounter (gameDetails : option (gmap Z GameDetails.t))
    (friends : list Friend.t) : list string :=
  friends ≫= GameMatcher.friendGenresOf gameDetails.

(** The position at which [a] occurs first in [l], the length of [l] when
    it does not occur. *)
Fixpoint position {A} `{EqDecision A} (a : A) (l : list A) : nat :=
  match l with
  | [] => 0
  | x :: l' => if decide (x = a) then 0 else S (position a l')
  end.

(** Strings of white space only, strings without white space, and the
    number of slashes of a string. *)
Fixpoint blank (s : string) : bool :=
  match s with
  | EmptyString => true
  | String c s' => JS.isWhiteSpace c && blank s'
  end.

Fixpoint solid (s : string) : bool :=
  match s with
  | EmptyString => true
  | String c s' => negb (JS.isWhiteSpace c) && solid s'
  end.


End Spec.

(** ** Sample inputs *)

Module Sample.
Local Open Scope string_scope.

Definition game (appid : Z) (name : string) (playtime : Z) : Game.t :=
  Game.mk appid (Some name) (Some playtime).

(** The scenario of the specification. *)
Definition friendA : Friend.t :=
  Friend.mk "76561198000000001" "A" (Some [game 1 "Portal 2" 300; game 2 "Half-Life" 120]).
Definition friendB : Friend.t :=
  Friend.mk "76561198000000002" "B" (Some [game 2 "Half-Life" 45; game 3 "Left 4 Dead" 600]).
Definition friendC : Friend.t :=
  Friend.mk "76561198000000003" "C" (Some [game 1 "Portal 2" 10; game 2 "Half-Life" 0]).

(** A library with two games that the keyword table tags as Action. *)
Definition friendD : Friend.t :=
  Friend.mk "76561198000000004" "D"
            (Some [game 10 "War Action" 10; game 11 "Battle Quest" 20]).
Definition friendE : Friend.t :=
  Friend.mk "76561198000000005" "E" (Some [game 12 "World War" 30]).

(** Two accounts with the same display name, and a third friend. *)
Definition sam1 : Friend.t :=
  Friend.mk "76561198000000006" "Sam" (Some [game 1 "Portal 2" 50]).
Definition sam2 : Friend.t :=
  Friend.mk "76561198000000007" "Sam" (Some []).
Definition alex : Friend.t :=
  Friend.mk "76561198000000008" "Alex" (Some [game 1 "Portal 2" 70]).

(** Two common games with the same total playtime, and a third one. *)
Definition friendT : Friend.t :=
  Friend.mk "76561198000000011" "T"
            (Some [game 3 "Terraria" 5; game 1 "Portal 2" 5; game 2 "Half-Life" 9]).
Definition friendU : Friend.t :=
  Friend.mk "76561198000000012" "U"
            (Some [game 1 "Portal 2" 0; game 2 "Half-Life" 0; game 3 "Terraria" 0]).

(** Two accounts with the same display name who both own Action games. *)
Definition samD : Friend.t :=
  Friend.mk "76561198000000015" "Sam" (Some [game 10 "War Action" 10]).
Definition samE : Friend.t :=
  Friend.mk "76561198000000016" "Sam" (Some [game 12 "World War" 30]).

(** A negative playtime in one of two libraries. *)
Definition friendN : Friend.t :=
  Friend.mk "76561198000000009" "N" (Some [game 1 "Portal 2" (-30)]).
Definition friendP : Friend.t :=
  Friend.mk "76561198000000010" "P" (Some [game 1 "Portal 2" 100]).

Definition entries : list RawRecommendation.t :=
  [RawRecommendation.mk (Some "Deep Rock Galactic") (Some "$29.99")
     (Some "Co-op mining shooter") (Some "Fits the group")
     (Some "1-4") (Some ["co-op"; "shooter"]);
   RawRecommendation.mk (Some "Valheim") (Some "$19.99")
     (Some "Viking survival") (Some "Shared survival interest")
     (Some "1-10") (Some ["survival"])].

Definition reply : Response.t := Response.mk true (Some entries) None.

(** The request for the friends of the scenario, after a search. *)
Definition searched : App.t :=
  App.handleFindMatches App.new [friendA; friendB; friendC].

Definition request : Request.t :=
  Request.mk [Some "Half-Life"] [] ["A"; "B"; "C"].

(** A roster of two friends, the first of them selected. *)
Definition roster : FriendsManager.t :=
  FriendsManager.mk [("76561198000000001", friendA); ("76561198000000002", friendB)]
                    ["76561198000000001"].
End Sample.

(** * Properties *)

(** Membership in a list by its head, by its tail. *)
Ltac elem_of_head := apply elem_of_cons; by left.
Ltac elem_of_tail := apply elem_of_cons; by right.

(** ** The model on sample inputs *)

(** The scenario of the specification: Half-Life is the game that A, B and C
    all own, Portal 2 the one that only B misses. *)
Example scenario_common_games :
  GameMatcher.findCommonGames [Sample.friendA; Sample.friendB; Sample.friendC]
  = Some [CommonGame.mk (Some (Sample.game 2 "Half-Life" 120))
            (Some (JS.Num 165)) (Some (JS.Num 55)) (Some 3)].
Proof. reflexivity. Qed.

Example scenario_almost_matched :
  GameMatcher.findAlmostMatchedGames [Sample.friendA; Sample.friendB; Sample.friendC]
  = [AlmostMatched.mk (Sample.game 1 "Portal 2" 300) ["A"; "C"]%string ["B"%string] 2].
Proof. reflexivity. Qed.

(** Equal totals keep the order of the first library; the larger total
    comes first. *)
Example ties_keep_the_library_order :
  fmap (M:=list) CommonGame.appid
    <$> GameMatcher.findCommonGames [Sample.friendT; Sample.friendU]
  = Some [Some 2%Z; Some 3%Z; Some 1%Z].
Proof. reflexivity. Qed.

(** With two friends, a first friend without [games] array makes the call
    throw; any other friend without one empties the intersection. *)
Example first_friend_without_library :
  GameMatcher.findCommonGames
    [Friend.mk "76561198000000013" "X" None; Sample.friendA] = None
  ∧ GameMatcher.findCommonGames
      [Sample.friendA; Friend.mk "76561198000000013" "X" None] = Some [].
Proof. split; reflexivity. Qed.

(** A game without playtime in a library turns the total and the average
    of [findCommonGames] into [NaN]. *)
Example missing_playtime_in_the_sum :
  GameMatcher.findCommonGames
    [Friend.mk "76561198000000014" "Y" (Some [Game.mk 1 (Some "Portal 2"%string) None]);
     Sample.friendP]
  = Some [CommonGame.mk (Some (Game.mk 1 (Some "Portal 2"%string) None))
            (Some JS.NaN) (Some JS.NaN) (Some 2)].
Proof. reflexivity. Qed.

(** Two friends who share the Action genre, through different games. *)
Example shared_genre_of_two_friends :
  GameMatcher.analyzeSharedGenres [Sample.friendD; Sample.friendE] None
  = [SharedGenre.mk "Action" 2 ["D"; "E"]%string].
Proof. reflexivity. Qed.


(** ** Insertion-ordered sets and maps *)

Section collections_facts.
Context {K : Type} `{EqDecision K}.
Implicit Types (s l : list K) (x y : K).

Lemma elem_of_Set_add s x y : y ∈ JS.Set_add s x ↔ y ∈ s ∨ y = x.
Proof.
  unfold JS.Set_add. case_decide.
  - split; [auto | intros [?| ->]; done].
  - rewrite elem_of_app, list_elem_of_singleton. done.
Qed.

Lemma NoDup_Set_add s x : NoDup s → NoDup (JS.Set_add s x).
Proof.
  intros Hs. unfold JS.Set_add. case_decide; [done|].
  apply NoDup_app. split_and!; [done| |apply NoDup_singleton].
  intros y Hy ->%list_elem_of_singleton. done.
Qed.

Lemma length_Set_add s x : length s ≤ length (JS.Set_add s x) ≤ S (length s).
Proof.
  unfold JS.Set_add. case_decide; [lia|]. rewrite length_app. simpl. lia.
Qed.

Lemma elem_of_foldl_Set_add l s y : y ∈ foldl JS.Set_add s l ↔ y ∈ s ∨ y ∈ l.
Proof.
  revert s. induction l as [|x l IH]; intros s; simpl.
  - rewrite elem_of_nil. tauto.
  - rewrite IH, elem_of_Set_add, elem_of_cons. tauto.
Qed.

Lemma NoDup_foldl_Set_add l s : NoDup s → NoDup (foldl JS.Set_add s l).
Proof.
  revert s. induction l as [|x l IH]; intros s Hs; simpl; [done|].
  by apply IH, NoDup_Set_add.
Qed.

Lemma elem_of_new_Set l y : y ∈ JS.new_Set l ↔ y ∈ l.
Proof.
  unfold JS.new_Set. rewrite elem_of_foldl_Set_add, elem_of_nil. tauto.
Qed.

Lemma NoDup_new_Set l : NoDup (JS.new_Set l).
Proof. apply NoDup_foldl_Set_add, NoDup_nil_2. Qed.
End collections_facts.

Section map_facts.
Context {K : Type} `{EqDecision K} {V : Type}.
Implicit Types (m : list (K * V)) (k : K) (v : V).

Lemma Map_set_keys_present m k v : k ∈ m.*1 → (JS.Map_set m k v).*1 = m.*1.
Proof.
  induction m as [|e m IH]; simpl; [by intros ?%elem_of_nil|].
  intros Hk. case_decide as He; simpl; [by rewrite He|].
  f_equal. apply IH. apply elem_of_cons in Hk as [?|?]; [congruence|done].
Qed.

Lemma Map_set_keys_fresh m k v : k ∉ m.*1 → (JS.Map_set m k v).*1 = m.*1 ++ [k].
Proof.
  induction m as [|e m IH]; simpl; [done|].
  intros Hk. apply not_elem_of_cons in Hk as [? ?].
  case_decide; [congruence|]. simpl. f_equal. by apply IH.
Qed.

Lemma elem_of_Map_set_keys m k v k' : k' ∈ (JS.Map_set m k v).*1 ↔ k' ∈ m.*1 ∨ k' = k.
Proof.
  destruct (decide (k ∈ m.*1)) as [Hin|Hout].
  - rewrite Map_set_keys_present by done. split; [auto|]. by intros [?| ->].
  - rewrite Map_set_keys_fresh, elem_of_app, list_elem_of_singleton by done. done.
Qed.

Lemma Map_alter_keys (f : V → V) m k : (JS.Map_alter f m k).*1 = m.*1.
Proof.
  unfold JS.Map_alter. induction m as [|e m IH]; simpl; [done|].
  f_equal; [|done]. by case_decide.
Qed.

Lemma Map_get_Some m k v : JS.Map_get m k = Some v → (k, v) ∈ m.
Proof.
  unfold JS.Map_get, JS.find. intros Hget.
  destruct (list_find _ m) as [[i [k' v']]|] eqn:Hfind; simplify_eq/=.
  apply list_find_Some in Hfind as (Hi & Hk & _). simpl in Hk. subst k'.
  by eapply list_elem_of_lookup_2.
Qed.

Lemma Map_get_is_Some m k : k ∈ m.*1 → is_Some (JS.Map_get m k).
Proof.
  intros (e & -> & He)%list_elem_of_fmap.
  unfold JS.Map_get, JS.find.
  destruct (list_find (λ e0, e0.1 = e.1) m) as [[i e']|] eqn:Hfind; [by eexists|].
  apply list_find_None in Hfind. rewrite Forall_forall in Hfind.
  by destruct (Hfind e He).
Qed.

Lemma new_Map_keys (entries : list (K * V)) k :
  k ∈ (JS.new_Map entries).*1 ↔ k ∈ entries.*1.
Proof.
  unfold JS.new_Map.
  assert (∀ m, k ∈ (foldl (λ m e, JS.Map_set m e.1 e.2) m entries).*1
               ↔ k ∈ m.*1 ∨ k ∈ entries.*1) as Hgen.
  { induction entries as [|e entries IH]; intros m; simpl.
    - rewrite elem_of_nil. tauto.
    - rewrite IH, elem_of_Map_set_keys, elem_of_cons. tauto. }
  rewrite Hgen. simpl. rewrite elem_of_nil. tauto.
Qed.
End map_facts.

(** ** The sort *)

Section sort_facts.
Context {A : Type} (comparefn : A → A → JS.number).

Lemma sort_insert_Permutation x l : JS.sort_insert comparefn x l ≡ₚ x :: l.
Proof.
  induction l as [|y l IH]; simpl; [done|].
  destruct (JS.positive _); [|done].
  rewrite IH. apply Permutation_swap.
Qed.

Lemma sort_Permutation l : JS.sort comparefn l ≡ₚ l.
Proof.
  unfold JS.sort. induction l as [|x l IH]; simpl; [done|].
  by rewrite sort_insert_Permutation, IH.
Qed.

(** A comparator that subtracts integer keys, on the elements that
    satisfy [P]. *)
Context (key : A → Z) (P : A → Prop).
Hypothesis comparefn_key :
  ∀ x y, P x → P y → comparefn x y = JS.Num (key y - key x).

Lemma sort_insert_sorted x l :
  P x → Forall P l → StronglySorted (λ a b, (key b ≤ key a)%Z) l →
  StronglySorted (λ a b, (key b ≤ key a)%Z) (JS.sort_insert comparefn x l).
Proof.
  intros Hx. induction l as [|y l IH]; intros Hl Hsorted; simpl.
  - repeat constructor.
  - apply Forall_cons in Hl as [Hy Hl].
    apply StronglySorted_inv in Hsorted as [Hsorted Hall].
    rewrite (comparefn_key x y Hx Hy). simpl. case_bool_decide as Hlt.
    + constructor; [by apply IH|].
      rewrite sort_insert_Permutation. constructor; [lia | done].
    + constructor; [by constructor|].
      constructor; [lia|].
      eapply Forall_impl; [exact Hall|]. intros; simpl in *; lia.
Qed.

Lemma sort_sorted l : Forall P l → StronglySorted (λ a b, (key b ≤ key a)%Z) (JS.sort comparefn l).
Proof.
  unfold JS.sort. induction l as [|x l IH]; intros Hl; simpl; [constructor|].
  apply Forall_cons in Hl as [Hx Hl].
  apply sort_insert_sorted; [done| |by apply IH].
  fold (JS.sort comparefn l). by rewrite sort_Permutation.
Qed.

(** Stability: two elements with the same key keep the order they had. *)
Lemma sort_insert_stable x l a b :
  P x → Forall P l → key a = key b →
  [a; b] `sublist_of` JS.sort_insert comparefn x l → [a; b] `sublist_of` x :: l.
Proof.
  intros Hx. induction l as [|y l IH]; intros Hl Hkey; simpl; [done|].
  apply Forall_cons in Hl as [Hy Hl].
  rewrite (comparefn_key x y Hx Hy). simpl. case_bool_decide as Hlt; [|done].
  intros [Hsub|(l' & Heq & Hsub)]%sublist_cons_r.
  - specialize (IH Hl Hkey Hsub).
    apply sublist_cons_r in IH as [IH|(l' & Heq & IH)].
    + by do 2 apply sublist_cons.
    + rewrite Heq. apply sublist_skip. by apply sublist_cons.
  - injection Heq as -> <-.
    assert (b ∈ x :: l) as [->|Hb]%elem_of_cons.
    { rewrite <-sort_insert_Permutation.
      eapply elem_of_sublist; [|exact Hsub]. apply list_elem_of_singleton. done. }
    + lia.
    + apply sublist_cons, sublist_skip. by apply singleton_sublist_l.
Qed.

Lemma sort_stable l a b :
  Forall P l → key a = key b →
  [a; b] `sublist_of` JS.sort comparefn l → [a; b] `sublist_of` l.
Proof.
  unfold JS.sort. induction l as [|x l IH]; intros Hl Hkey; simpl; [done|].
  apply Forall_cons in Hl as [Hx Hl]. fold (JS.sort comparefn l).
  intros Hsub. apply sort_insert_stable in Hsub; [|done| |done].
  2: { by rewrite sort_Permutation. }
  apply sublist_cons_r in Hsub as [Hsub|(l' & Heq & Hsub)].
  - apply sublist_cons. by apply IH.
  - rewrite Heq. apply sublist_skip.
    injection Heq as -> <-. apply singleton_sublist_l.
    rewrite <-(sort_Permutation l).
    eapply elem_of_sublist; [|exact Hsub]. by apply list_elem_of_singleton.
Qed.
End sort_facts.

(** ** Order of a set built from a list *)

Lemma indexOf_app_l a (l k : list Z) :
  a ∈ l → Spec.indexOf a (l ++ k) = Spec.indexOf a l.
Proof.
  induction l as [|x l IH]; simpl; [by intros ?%elem_of_nil|].
  intros Ha. case_decide; [done|]. f_equal. apply IH.
  apply elem_of_cons in Ha as [?|?]; [congruence|done].
Qed.

Lemma foldl_Set_add_order (l s : list Z) a b :
  NoDup s → [a; b] `sublist_of` foldl JS.Set_add s l →
  [a; b] `sublist_of` s
  ∨ (a ∈ s ∧ (b ∉ s) ∧ b ∈ l)
  ∨ ((a ∉ s) ∧ (b ∉ s) ∧ Spec.indexOf a l < Spec.indexOf b l).
Proof.
  revert s. induction l as [|x l IH]; intros s Hs Hsub; simpl in *; [by left|].
  destruct (IH _ (NoDup_Set_add s x Hs) Hsub)
    as [Hin|[(Ha & Hb & Hbl)|(Ha & Hb & Hlt)]]; clear IH Hsub.
  - revert Hin. unfold JS.Set_add. case_decide as Hx; [by left|].
    intros (l1 & l2 & Heq & H1 & H2)%sublist_app_r.
    destruct l1 as [|a' [|b' l1]]; simplify_eq/=.
    + apply sublist_length in H2. simpl in H2. lia.
    + right; left. apply singleton_sublist_l in H1.
      apply singleton_sublist_l, list_elem_of_singleton in H2 as ->.
      split_and!; [done|done|elem_of_head].
    + destruct l1; [|done]. simplify_eq/=. by left.
  - rewrite elem_of_Set_add in Ha, Hb.
    assert ((b ∉ s) ∧ b ≠ x) as [Hbs Hbx] by tauto.
    destruct (decide (a ∈ s)) as [Has|Has].
    + right; left. split_and!; [done|done|by apply elem_of_cons; right].
    + right; right. destruct Ha as [?| ->]; [done|].
      split_and!; [done|done|]. rewrite !decide_True by done.
      rewrite decide_False by done. lia.
  - rewrite elem_of_Set_add in Ha, Hb.
    right; right. split_and!; [tauto|tauto|].
    rewrite !decide_False by (intros ->; tauto). lia.
Qed.

Lemma new_Set_order (l : list Z) a b :
  [a; b] `sublist_of` JS.new_Set l → Spec.indexOf a l < Spec.indexOf b l.
Proof.
  intros Hsub. unfold JS.new_Set in Hsub.
  apply foldl_Set_add_order in Hsub as [Hsub|[(Ha & _)|(_ & _ & Hlt)]];
    [|by apply elem_of_nil in Ha|done|apply NoDup_nil_2].
  apply sublist_nil_r in Hsub. done.
Qed.

Lemma lookup_lt_sublist {A} (l : list A) i j x y :
  i < j → l !! i = Some x → l !! j = Some y → [x; y] `sublist_of` l.
Proof.
  revert i j. induction l as [|z l IH]; intros i j Hlt Hi Hj; [done|].
  destruct i as [|i], j as [|j]; simplify_eq/=; try lia.
  - apply sublist_skip, singleton_sublist_l. by eapply list_elem_of_lookup_2.
  - apply sublist_cons. eapply (IH i j); [lia|done|done].
Qed.

Lemma Forall2_sublist_pair {A B} (R : A → B → Prop) (l : list A) (k : list B) x y :
  Forall2 R l k → [x; y] `sublist_of` k →
  ∃ a b, [a; b] `sublist_of` l ∧ R a x ∧ R b y.
Proof.
  induction 1 as [|a' x' l k HR HF IH]; intros Hsub.
  - by apply sublist_nil_r in Hsub.
  - apply sublist_cons_r in Hsub as [Hsub|(k' & Heq & Hsub)].
    + destruct (IH Hsub) as (a & b & ? & ? & ?).
      exists a, b. split_and!; [by apply sublist_cons|done|done].
    + injection Heq as -> <-.
      apply singleton_sublist_l, list_elem_of_lookup in Hsub as [i Hi].
      destruct (Forall2_lookup_r _ _ _ _ _ HF Hi) as (b & Hb & ?).
      exists a', b. split_and!; [|done|done].
      apply sublist_skip, singleton_sublist_l. by eapply list_elem_of_lookup_2.
Qed.

Lemma StronglySorted_impl_Forall {A} (R R' : A → A → Prop) (P : A → Prop) l :
  (∀ x y, P x → P y → R x y → R' x y) →
  Forall P l → StronglySorted R l → StronglySorted R' l.
Proof.
  intros HR. induction l as [|x l IH]; intros HP Hsorted; [constructor|].
  apply Forall_cons in HP as [Hx Hl].
  apply StronglySorted_inv in Hsorted as [Hsorted Hall].
  constructor; [by apply IH|].
  rewrite Forall_forall in Hall, Hl |- *. intros y Hy.
  apply HR; auto.
Qed.

(** ** [findCommonGames] *)

Section new_Map_facts.
Context {K : Type} `{EqDecision K} {V : Type}.

Lemma elem_of_Map_set (m : list (K * V)) k v e :
  e ∈ JS.Map_set m k v → e ∈ m ∨ e = (k, v).
Proof.
  induction m as [|e' m IH]; simpl.
  - intros ->%list_elem_of_singleton. by right.
  - case_decide.
    + intros [->|?]%elem_of_cons; [by right|left; by apply elem_of_cons; right].
    + intros [->|[?|?]%IH]%elem_of_cons; [left; elem_of_head| |by right].
      left. by apply elem_of_cons; right.
Qed.

Lemma elem_of_new_Map (entries : list (K * V)) e :
  e ∈ JS.new_Map entries → e ∈ entries.
Proof.
  unfold JS.new_Map.
  assert (∀ m, e ∈ foldl (λ m e, JS.Map_set m e.1 e.2) m entries
               → e ∈ m ∨ e ∈ entries) as Hgen.
  { induction entries as [|e' entries IH]; intros m; simpl; [by left|].
    intros [[?| ->]%elem_of_Map_set|?]%IH.
    - by left.
    - right. destruct e'. elem_of_head.
    - right. by apply elem_of_cons; right. }
  intros [?%elem_of_nil|?]%Hgen; done.
Qed.
End new_Map_facts.

Lemma find_Some_elem_of {A} (P : A → Prop) `{∀ x, Decision (P x)} (l : list A) x :
  JS.find P l = Some x → x ∈ l ∧ P x.
Proof.
  unfold JS.find. destruct (list_find P l) as [[i y]|] eqn:Hfind; intros; simplify_eq/=.
  apply list_find_Some in Hfind as (Hi & HP & _).
  split; [by eapply list_elem_of_lookup_2|done].
Qed.

Lemma gameMap_get (games0 : list Game.t) (a : Z) :
  a ∈ Game.appid <$> games0 →
  ∃ g, JS.Map_get (JS.new_Map ((λ g, (Game.appid g, g)) <$> games0)) a = Some g
       ∧ Game.appid g = a.
Proof.
  intros Ha.
  destruct (Map_get_is_Some (JS.new_Map ((λ g, (Game.appid g, g)) <$> games0)) a)
    as [g Hg].
  { apply new_Map_keys. by rewrite <-list_fmap_compose. }
  exists g. split; [done|].
  apply Map_get_Some, elem_of_new_Map, list_elem_of_fmap in Hg as (g' & Heq & _).
  by simplify_eq.
Qed.

Lemma elem_of_commonAppIdsOf friends friend0 a :
  friend0 ∈ friends →
  a ∈ GameMatcher.commonAppIdsOf friends friend0
  ↔ Forall (λ friend, a ∈ Spec.owned friend) friends.
Proof.
  intros Hin. unfold GameMatcher.commonAppIdsOf, Spec.owned.
  rewrite list_elem_of_filter, Forall_fmap, elem_of_new_Set. split.
  - intros [Hall _]. eapply Forall_impl; [exact Hall|].
    intros friend. simpl. by rewrite elem_of_new_Set.
  - intros Hall. split.
    + eapply Forall_impl; [exact Hall|].
      intros friend. simpl. by rewrite elem_of_new_Set.
    + rewrite Forall_forall in Hall. by apply Hall.
Qed.

Lemma totalPlaytimeOf_is_Some friends a :
  Forall Spec.has_library friends → is_Some (GameMatcher.totalPlaytimeOf friends a).
Proof.
  unfold GameMatcher.totalPlaytimeOf. set (f := λ sum friend, _).
  generalize (JS.Num 0).
  induction friends as [|friend friends IH]; intros init Hall; simpl; [by eexists|].
  apply Forall_cons in Hall as [[games Hgames] Hall].
  assert (is_Some (f init friend)) as [acc ->].
  { unfold f. rewrite Hgames. by eexists. }
  simpl. by apply IH.
Qed.

Lemma totalPlaytimeOf_plain friends a :
  Forall Spec.has_library friends → Forall Spec.has_playtimes friends →
  GameMatcher.totalPlaytimeOf friends a = Some (JS.Num (Spec.plainSum friends a)).
Proof.
  unfold GameMatcher.totalPlaytimeOf. set (f := λ sum friend, _).
  intros Hlib Hplay.
  enough (∀ z, JS.reduce f (JS.Num z) friends
               = Some (JS.Num (z + Spec.plainSum friends a))) as Hgen.
  { by rewrite Hgen. }
  induction friends as [|friend friends IH]; intros z; simpl.
  - by rewrite Z.add_0_r.
  - apply Forall_cons in Hlib as [[games Hgames] Hlib].
    apply Forall_cons in Hplay as [Hpt Hplay].
    assert (f (JS.Num z) friend = Some (JS.Num (z + Spec.plainPlaytime a friend))) as ->.
    { unfold f, Spec.plainPlaytime, GameMatcher.gamesOrEmpty.
      unfold Spec.has_playtimes, GameMatcher.gamesOrEmpty in Hpt.
      rewrite Hgames in Hpt |- *. simpl in Hpt |- *.
      destruct (JS.find _ games) as [g|] eqn:Hfind; simpl; [|done].
      apply find_Some_elem_of in Hfind as [Hg _].
      rewrite Forall_forall in Hpt. destruct (Hpt g Hg) as [p Hp].
      by rewrite Hp. }
    simpl. rewrite IH by done. do 2 f_equal.
    change (Spec.plainSum (friend :: friends) a)
      with (Spec.plainPlaytime a friend + Spec.plainSum friends a)%Z.
    lia.
Qed.

(** The shape of the results for two friends or more. *)
Lemma findCommonGames_many friend0 friend1 rest out :
  let friends := friend0 :: friend1 :: rest in
  GameMatcher.findCommonGames friends = Some out ↔
  ∃ games0 commonGames,
    Friend.games friend0 = Some games0
    ∧ Forall2 (λ a r, GameMatcher.commonGameOf friends
                        (JS.new_Map ((λ g, (Game.appid g, g)) <$> games0)) a = Some r)
              (GameMatcher.commonAppIdsOf friends friend0) commonGames
    ∧ out = JS.sort GameMatcher.byTotalPlaytime commonGames.
Proof.
  intros friends. subst friends. unfold GameMatcher.findCommonGames. split.
  - intros (games0 & Hgames & Hout)%bind_Some.
    apply bind_Some in Hout as (commonGames & HmapM & Hout). simplify_eq.
    exists games0, commonGames. split_and!; [done| |done].
    by apply mapM_Some.
  - intros (games0 & commonGames & -> & HF & ->). simpl.
    apply mapM_Some in HF. by rewrite HF.
Qed.

Lemma commonGames_fields friends games0 cids commonGames :
  (∀ a, a ∈ cids → a ∈ Game.appid <$> games0) →
  Forall2 (λ a r, GameMatcher.commonGameOf friends
                    (JS.new_Map ((λ g, (Game.appid g, g)) <$> games0)) a = Some r)
          cids commonGames →
  Forall2 (λ a r, CommonGame.appid r = Some a
                  ∧ CommonGame.totalPlaytime r = GameMatcher.totalPlaytimeOf friends a
                  ∧ CommonGame.averagePlaytime r
                    = (λ t, JS.round_div t (length friends))
                        <$> GameMatcher.totalPlaytimeOf friends a
                  ∧ CommonGame.ownerCount r = Some (length friends))
          cids commonGames.
Proof.
  intros Hin HF. induction HF as [|a r cids commonGames Hr HF IH]; [constructor|].
  constructor.
  - unfold GameMatcher.commonGameOf in Hr.
    destruct (gameMap_get games0 a) as (g & Hg & <-); [apply Hin, elem_of_cons; by left|].
    destruct (GameMatcher.totalPlaytimeOf friends _) as [t|]; simplify_eq/=.
    unfold CommonGame.appid. simpl. by rewrite Hg.
  - apply IH. intros a' Ha'. apply Hin, elem_of_cons. by right.
Qed.

Lemma findCommonGames_is_Some friends :
  Forall Spec.has_library friends → is_Some (GameMatcher.findCommonGames friends).
Proof.
  intros Hlib. destruct friends as [|friend0 [|friend1 rest]]; [by eexists..|].
  unfold GameMatcher.findCommonGames.
  pose proof Hlib as [[games0 ->] _]%Forall_cons. simpl.
  destruct (mapM_is_Some_2
    (GameMatcher.commonGameOf (friend0 :: friend1 :: rest)
       (JS.new_Map ((λ g, (Game.appid g, g)) <$> games0)))
    (GameMatcher.commonAppIdsOf (friend0 :: friend1 :: rest) friend0)) as [cs ->].
  - apply Forall_forall. intros a _. simpl. unfold GameMatcher.commonGameOf.
    destruct (totalPlaytimeOf_is_Some (friend0 :: friend1 :: rest) a Hlib) as [t ->].
    by eexists.
  - by eexists.
Qed.

(** C2, as the specification has it, fails: with one friend the games come
    back as they are in the library, and no [ownerCount], [totalPlaytime] or
    [averagePlaytime] is attached to them. *)
Lemma findCommonGames_single_friend_not_wrapped :
  ¬ ∃ out, GameMatcher.findCommonGames [Sample.friendE] = Some out
           ∧ Forall2 Spec.wrapped_single (GameMatcher.gamesOrEmpty Sample.friendE) out.
Proof.
  intros (out & Hout & Hwrapped). vm_compute in Hout. simplify_eq.
  apply Forall2_cons_1 in Hwrapped as [(_ & Hcount & _) _]. discriminate.
Qed.

(** C2, amended: for the empty friend list [findCommonGames] returns the
    empty sequence, and for a list of one friend it returns the library of
    that friend (the empty sequence when the friend has none), game by game
    in the order of the library and unchanged: no [ownerCount],
    [totalPlaytime] or [averagePlaytime] is added. *)
Theorem findCommonGames_zero_or_one_friend :
  GameMatcher.findCommonGames [] = Some []
  ∧ ∀ friend, ∃ out,
      GameMatcher.findCommonGames [friend] = Some out
      ∧ Forall2 Spec.unwrapped (GameMatcher.gamesOrEmpty friend) out.
Proof.
  split; [done|]. intros friend. eexists. split; [done|].
  induction (GameMatcher.gamesOrEmpty friend) as [|g games IH]; simpl; [constructor|].
  constructor; [|exact IH]. by repeat split.
Qed.

(** C3: for a nonempty friend list the application ids of the result of
    [findCommonGames] are those that every friend owns: the intersection of
    the friends' sets of ids (a friend without library owning nothing).  The
    call returns whenever every friend has a library. *)
Theorem findCommonGames_appids_are_the_intersection friends :
  friends ≠ [] →
  (Forall Spec.has_library friends → is_Some (GameMatcher.findCommonGames friends))
  ∧ ∀ out, GameMatcher.findCommonGames friends = Some out →
      ∀ a, Some a ∈ CommonGame.appid <$> out
           ↔ Forall (λ friend, a ∈ Spec.owned friend) friends.
Proof.
  intros Hne. split; [apply findCommonGames_is_Some|].
  intros out Hout a. destruct friends as [|friend0 [|friend1 rest]]; [done|..].
  - simpl in Hout. simplify_eq. rewrite <-list_fmap_compose.
    rewrite Forall_singleton. unfold Spec.owned.
    rewrite !list_elem_of_fmap. split.
    + intros (g & Heq & Hg). exists g. split; [|done].
      unfold CommonGame.appid in Heq. simpl in Heq. congruence.
    + intros (g & -> & Hg). by exists g.
  - apply findCommonGames_many in Hout as (games0 & commonGames & Hgames & HF & ->).
    rewrite sort_Permutation.
    apply commonGames_fields in HF.
    2:{ intros a' Ha'. apply elem_of_commonAppIdsOf in Ha'; [|elem_of_head].
        apply Forall_cons in Ha' as [Ha' _]. revert Ha'.
        unfold Spec.owned, GameMatcher.gamesOrEmpty. by rewrite Hgames. }
    rewrite <-(elem_of_commonAppIdsOf _ friend0) by elem_of_head.
    assert (CommonGame.appid <$> commonGames
            = Some <$> GameMatcher.commonAppIdsOf (friend0 :: friend1 :: rest) friend0)
      as ->.
    { induction HF as [|???? (? & _) ? IH]; simpl; [done|]. by f_equal. }
    apply list_elem_of_fmap_inj. apply _.
Qed.

Lemma findCommonGames_appids_are_the_intersection_witness :
  (Forall Spec.has_library [Sample.friendA; Sample.friendB; Sample.friendC]
   → is_Some (GameMatcher.findCommonGames [Sample.friendA; Sample.friendB; Sample.friendC]))
  ∧ ∀ out,
      GameMatcher.findCommonGames [Sample.friendA; Sample.friendB; Sample.friendC] = Some out →
      ∀ a, Some a ∈ CommonGame.appid <$> out
           ↔ Forall (λ friend, a ∈ Spec.owned friend)
                    [Sample.friendA; Sample.friendB; Sample.friendC].
Proof.
  apply (findCommonGames_appids_are_the_intersection
           [Sample.friendA; Sample.friendB; Sample.friendC]).
  discriminate.
Defined.

(** C6: with two friends or more, libraries and playtimes present, the
    result of [findCommonGames] is in order of non-increasing
    [totalPlaytime], and of two results with the same [totalPlaytime] the
    one whose application id is met first in the input comes first. *)
Theorem findCommonGames_descending_and_stable friends :
  2 ≤ length friends →
  Forall Spec.has_library friends →
  Forall Spec.has_playtimes friends →
  ∃ out, GameMatcher.findCommonGames friends = Some out
    ∧ StronglySorted Spec.total_ge out
    ∧ ∀ i j x y, i < j → out !! i = Some x → out !! j = Some y →
        CommonGame.totalPlaytime x = CommonGame.totalPlaytime y →
        ∃ a b, CommonGame.appid x = Some a ∧ CommonGame.appid y = Some b
               ∧ Spec.indexOf a (Spec.encounter friends)
                 < Spec.indexOf b (Spec.encounter friends).
Proof.
  intros Hlen Hlib Hplay.
  destruct (findCommonGames_is_Some friends Hlib) as [out Hout].
  exists out. split; [done|].
  destruct friends as [|friend0 [|friend1 rest]]; [simpl in Hlen; lia..|].
  set (friends := friend0 :: friend1 :: rest) in *.
  apply findCommonGames_many in Hout as (games0 & commonGames & Hgames & HF & ->).
  assert (∀ a, a ∈ GameMatcher.commonAppIdsOf friends friend0 → a ∈ Spec.owned friend0)
    as Hcids.
  { intros a Ha. apply elem_of_commonAppIdsOf in Ha; [|elem_of_head].
    by apply Forall_cons in Ha as [Ha _]. }
  apply commonGames_fields in HF.
  2:{ intros a Ha. apply Hcids in Ha. revert Ha.
      unfold Spec.owned, GameMatcher.gamesOrEmpty. by rewrite Hgames. }
  set (key := λ r, match CommonGame.totalPlaytime r with
                   | Some (JS.Num z) => z
                   | _ => 0%Z
                   end).
  set (P := λ r, ∃ z, CommonGame.totalPlaytime r = Some (JS.Num z)).
  assert (∀ x y, P x → P y → GameMatcher.byTotalPlaytime x y = JS.Num (key y - key x))
    as Hcmp.
  { intros x y [zx Hx] [zy Hy]. unfold GameMatcher.byTotalPlaytime, key.
    by rewrite Hx, Hy. }
  assert (Forall P commonGames) as HP.
  { clear Hcids. induction HF as [|a r ?? (_ & Ht & _) ? IH]; constructor; [|done].
    rewrite totalPlaytimeOf_plain in Ht by done. by eexists. }
  split.
  - eapply (StronglySorted_impl_Forall _ _ P);
      [|by rewrite sort_Permutation|by eapply (sort_sorted _ key P)].
    intros x y [zx Hx] [zy Hy]. unfold key, Spec.total_ge. rewrite Hx, Hy.
    intros Hle. by exists zx, zy.
  - intros i j x y Hij Hi Hj Hsame.
    pose proof (lookup_lt_sublist _ _ _ _ _ Hij Hi Hj) as Hsub.
    apply (sort_stable _ key P Hcmp) in Hsub; [|done|by unfold key; rewrite Hsame].
    destruct (Forall2_sublist_pair _ _ _ _ _ HF Hsub)
      as (a & b & Hab & (Ha & _) & (Hb & _)).
    exists a, b. split_and!; [done|done|].
    assert ([a; b] `sublist_of` JS.new_Set (Spec.owned friend0)) as Hset.
    { etrans; [exact Hab|]. apply sublist_filter. }
    assert (a ∈ Spec.owned friend0 ∧ b ∈ Spec.owned friend0) as [Ha0 Hb0].
    { split; apply elem_of_new_Set; (eapply elem_of_sublist; [|exact Hset]);
        set_solver. }
    unfold Spec.encounter, friends. rewrite bind_cons.
    rewrite !indexOf_app_l by done. by apply new_Set_order.
Qed.

Lemma findCommonGames_descending_and_stable_witness :
  ∃ out,
    GameMatcher.findCommonGames [Sample.friendT; Sample.friendU] = Some out
    ∧ StronglySorted Spec.total_ge out
    ∧ ∀ i j x y, i < j → out !! i = Some x → out !! j = Some y →
        CommonGame.totalPlaytime x = CommonGame.totalPlaytime y →
        ∃ a b, CommonGame.appid x = Some a ∧ CommonGame.appid y = Some b
               ∧ Spec.indexOf a (Spec.encounter [Sample.friendT; Sample.friendU])
                 < Spec.indexOf b (Spec.encounter [Sample.friendT; Sample.friendU]).
Proof.
  apply (findCommonGames_descending_and_stable
           [Sample.friendT; Sample.friendU]).
  - simpl. lia.
  - repeat constructor; by eexists.
  - repeat constructor; by eexists.
Defined.

(** ** Playtimes that are negative or missing *)

Lemma findAlmostMatchedGames_sorted friends :
  StronglySorted (λ x y, (Spec.playtimeKey y ≤ Spec.playtimeKey x)%Z)
                 (GameMatcher.findAlmostMatchedGames friends).
Proof.
  unfold GameMatcher.findAlmostMatchedGames. case_bool_decide; [constructor|].
  apply (sort_sorted _ Spec.playtimeKey (λ _, True)); [done|].
  by apply Forall_forall.
Qed.

Lemma gamesOrEmpty_clamp friend :
  GameMatcher.gamesOrEmpty (Spec.clamp friend)
  = Spec.clampGame <$> GameMatcher.gamesOrEmpty friend.
Proof. unfold GameMatcher.gamesOrEmpty. simpl. by destruct (Friend.games friend). Qed.

Lemma friendGenresOf_clamp gameDetails friend :
  GameMatcher.friendGenresOf gameDetails (Spec.clamp friend)
  = GameMatcher.friendGenresOf gameDetails friend.
Proof.
  unfold GameMatcher.friendGenresOf. rewrite gamesOrEmpty_clamp.
  generalize (@nil string).
  induction (GameMatcher.gamesOrEmpty friend) as [|g games IH]; intros s; simpl; [done|].
  apply IH.
Qed.

Lemma analyzeSharedGenres_clamp friends gameDetails :
  GameMatcher.analyzeSharedGenres (Spec.clamp <$> friends) gameDetails
  = GameMatcher.analyzeSharedGenres friends gameDetails.
Proof.
  unfold GameMatcher.analyzeSharedGenres. rewrite length_fmap.
  enough (GameMatcher.genreCountsOf gameDetails (Spec.clamp <$> friends)
          = GameMatcher.genreCountsOf gameDetails friends) as -> by done.
  unfold GameMatcher.genreCountsOf. generalize (@nil (string * GenreData.t)).
  induction friends as [|friend friends IH]; intros m; simpl; [done|].
  rewrite friendGenresOf_clamp. apply IH.
Qed.

(** C5, as the specification has it, fails: a negative playtime enters the
    sum of [findCommonGames] as it is.  Here the totals are [-30 + 100], not
    the [0 + 100] of the clamped libraries. *)
Lemma negative_playtime_is_not_clamped :
  fmap (M:=list) CommonGame.totalPlaytime
    <$> GameMatcher.findCommonGames [Sample.friendN; Sample.friendP]
  ≠ fmap (M:=list) CommonGame.totalPlaytime
    <$> GameMatcher.findCommonGames (Spec.clamp <$> [Sample.friendN; Sample.friendP]).
Proof. vm_compute. discriminate. Qed.

(** C5, amended: playtimes are used as they stand, and nothing is clamped.
    For every friend list whose libraries are present [findCommonGames]
    returns, and when moreover every game carries a playtime, negative or
    not, each result for two friends or more has as [totalPlaytime] the plain
    sum of the friends' playtimes of the game and as [averagePlaytime] the
    rounded quotient of that sum.  [findAlmostMatchedGames] always returns
    its results by non-increasing key, the key of a game being its playtime
    as it stands, or [0] when the game has none.  [analyzeSharedGenres] does
    not read the playtime. *)
Theorem playtime_is_used_as_it_stands friends gameDetails :
  Forall Spec.has_library friends →
  (∃ out, GameMatcher.findCommonGames friends = Some out
     ∧ (2 ≤ length friends → Forall Spec.has_playtimes friends →
        Forall (λ r, ∃ a,
                  CommonGame.appid r = Some a
                  ∧ CommonGame.totalPlaytime r = Some (JS.Num (Spec.plainSum friends a))
                  ∧ CommonGame.averagePlaytime r
                    = Some (JS.round_div (JS.Num (Spec.plainSum friends a)) (length friends)))
               out))
  ∧ StronglySorted (λ x y, (Spec.playtimeKey y ≤ Spec.playtimeKey x)%Z)
                   (GameMatcher.findAlmostMatchedGames friends)
  ∧ GameMatcher.analyzeSharedGenres (Spec.clamp <$> friends) gameDetails
    = GameMatcher.analyzeSharedGenres friends gameDetails.
Proof.
  intros Hlib. split_and!;
    [|apply findAlmostMatchedGames_sorted|apply analyzeSharedGenres_clamp].
  destruct (findCommonGames_is_Some friends Hlib) as [out Hout].
  exists out. split; [done|]. intros Hlen Hplay.
  destruct friends as [|friend0 [|friend1 rest]]; [simpl in Hlen; lia..|].
  set (friends := friend0 :: friend1 :: rest) in *.
  apply findCommonGames_many in Hout as (games0 & commonGames & Hgames & HF & ->).
  rewrite sort_Permutation.
  apply commonGames_fields in HF.
  2:{ intros a Ha. apply elem_of_commonAppIdsOf in Ha; [|elem_of_head].
      apply Forall_cons in Ha as [Ha _]. revert Ha.
      unfold Spec.owned, GameMatcher.gamesOrEmpty. by rewrite Hgames. }
  induction HF as [|a r ?? (Ha & Ht & Havg & _) ? IH]; constructor; [|done].
  rewrite totalPlaytimeOf_plain in Ht, Havg by done. by exists a.
Qed.

Lemma playtime_is_used_as_it_stands_witness :
  (∃ out, GameMatcher.findCommonGames [Sample.friendN; Sample.friendP] = Some out
     ∧ (2 ≤ length [Sample.friendN; Sample.friendP] →
        Forall Spec.has_playtimes [Sample.friendN; Sample.friendP] →
        Forall (λ r, ∃ a,
                  CommonGame.appid r = Some a
                  ∧ CommonGame.totalPlaytime r
                    = Some (JS.Num (Spec.plainSum [Sample.friendN; Sample.friendP] a))
                  ∧ CommonGame.averagePlaytime r
                    = Some (JS.round_div
                              (JS.Num (Spec.plainSum [Sample.friendN; Sample.friendP] a))
                              (length [Sample.friendN; Sample.friendP])))
               out))
  ∧ StronglySorted (λ x y, (Spec.playtimeKey y ≤ Spec.playtimeKey x)%Z)
                   (GameMatcher.findAlmostMatchedGames [Sample.friendN; Sample.friendP])
  ∧ GameMatcher.analyzeSharedGenres (Spec.clamp <$> [Sample.friendN; Sample.friendP]) None
    = GameMatcher.analyzeSharedGenres [Sample.friendN; Sample.friendP] None.
Proof.
  apply (playtime_is_used_as_it_stands [Sample.friendN; Sample.friendP] None).
  repeat constructor; by eexists.
Defined.

(** ** Genre inference and letter case *)

Lemma toLowerCase_char_idemp c :
  JS.toLowerCase_char (JS.toLowerCase_char c) = JS.toLowerCase_char c.
Proof. by destruct c as [[] [] [] [] [] [] [] []]. Qed.

Lemma toLowerCase_char_upper c :
  JS.toLowerCase_char (Spec.toUpperCase_char c) = JS.toLowerCase_char c.
Proof. by destruct c as [[] [] [] [] [] [] [] []]. Qed.

Lemma toLowerCase_idemp s : JS.toLowerCase (JS.toLowerCase s) = JS.toLowerCase s.
Proof.
  induction s as [|c s IH]; simpl; [done|].
  by rewrite toLowerCase_char_idemp, IH.
Qed.

Lemma same_letter_toLowerCase c c' :
  Spec.same_letter c c' = true → JS.toLowerCase_char c = JS.toLowerCase_char c'.
Proof.
  unfold Spec.same_letter. rewrite !orb_true_iff, !bool_decide_eq_true.
  intros [[->| ->]| ->];
    [done|by rewrite toLowerCase_char_idemp|by rewrite toLowerCase_char_upper].
Qed.

Lemma case_variant_toLowerCase s s' :
  Spec.case_variant s s' = true → JS.toLowerCase s = JS.toLowerCase s'.
Proof.
  revert s'. induction s as [|c s IH]; intros [|c' s']; simpl; try done.
  intros [Hc Hs]%andb_true_iff.
  by rewrite (same_letter_toLowerCase c c' Hc), (IH s' Hs).
Qed.

(** C7, as the specification has it, fails: [inferGenresFromName] compares
    the name as it is with its lower-case keywords. *)
Lemma inferGenresFromName_is_case_sensitive :
  Spec.case_variant "ACTION" "action" = true
  ∧ GameMatcher.inferGenresFromName "ACTION" ≠ GameMatcher.inferGenresFromName "action"
  ∧ GameMatcher.inferGenresFromName "ACTION"
    ≠ GameMatcher.inferGenresFromName (JS.toLowerCase "ACTION").
Proof. split_and!; [done|by vm_compute..]. Qed.

(** C7, amended: [inferGenresFromName] itself is case-sensitive; the
    inference that [analyzeSharedGenres] performs, which lower-cases the name
    of the game before it calls [inferGenresFromName], gives the same tags
    for a name and for every case variant of it (letters [A]-[Z], [a]-[z]),
    and the genres added for a game do not change when its name is replaced
    by a case variant. *)
Theorem lowered_genre_inference_ignores_case s s' :
  Spec.case_variant s s' = true →
  GameMatcher.inferGenresFromName (JS.toLowerCase s)
  = GameMatcher.inferGenresFromName (JS.toLowerCase s')
  ∧ GameMatcher.inferGenresFromName (JS.toLowerCase (JS.toLowerCase s))
    = GameMatcher.inferGenresFromName (JS.toLowerCase s)
  ∧ ∀ gameDetails friendGenres appid playtime,
      GameMatcher.addGenresOfGame gameDetails friendGenres (Game.mk appid (Some s) playtime)
      = GameMatcher.addGenresOfGame gameDetails friendGenres (Game.mk appid (Some s') playtime).
Proof.
  intros Hvariant%case_variant_toLowerCase. split_and!.
  - by rewrite Hvariant.
  - by rewrite toLowerCase_idemp.
  - intros. unfold GameMatcher.addGenresOfGame. simpl. by rewrite Hvariant.
Qed.

Lemma lowered_genre_inference_ignores_case_witness :
  GameMatcher.inferGenresFromName (JS.toLowerCase "Dragon QUEST")
  = GameMatcher.inferGenresFromName (JS.toLowerCase "dRAGON quest")
  ∧ GameMatcher.inferGenresFromName (JS.toLowerCase (JS.toLowerCase "Dragon QUEST"))
    = GameMatcher.inferGenresFromName (JS.toLowerCase "Dragon QUEST")
  ∧ ∀ gameDetails friendGenres appid playtime,
      GameMatcher.addGenresOfGame gameDetails friendGenres
        (Game.mk appid (Some "Dragon QUEST"%string) playtime)
      = GameMatcher.addGenresOfGame gameDetails friendGenres
          (Game.mk appid (Some "dRAGON quest"%string) playtime).
Proof.
  apply (lowered_genre_inference_ignores_case "Dragon QUEST" "dRAGON quest").
  reflexivity.
Defined.

(** ** Reading a map after an update *)

Section map_get_facts.
Context {K : Type} `{EqDecision K} {V : Type}.
Implicit Types (m : list (K * V)) (k : K) (v : V).

Lemma Map_get_cons e m k :
  JS.Map_get (e :: m) k = if decide (e.1 = k) then Some e.2 else JS.Map_get m k.
Proof.
  unfold JS.Map_get, JS.find. simpl. case_decide; [done|].
  rewrite <-!option_fmap_compose. by destruct (list_find _ m) as [[]|].
Qed.

Lemma Map_get_None m k : JS.Map_get m k = None ↔ k ∉ m.*1.
Proof.
  induction m as [|e m IH]; [split; [intros _; apply not_elem_of_nil|done]|].
  rewrite Map_get_cons. simpl. rewrite not_elem_of_cons.
  case_decide as He; [split; [done|by intros [? _]]|]. rewrite IH.
  split; [intros ?; split; [by intros ->|done]|by intros [_ ?]].
Qed.

Lemma Map_get_NoDup m k v : NoDup m.*1 → (k, v) ∈ m → JS.Map_get m k = Some v.
Proof.
  induction m as [|e m IH]; [by intros _ ?%elem_of_nil|].
  simpl. intros [Hfresh Hm]%NoDup_cons Hin. rewrite Map_get_cons.
  apply elem_of_cons in Hin as [<-|Hin]; simpl; [by rewrite decide_True|].
  rewrite decide_False; [by apply IH|].
  intros <-. apply Hfresh, list_elem_of_fmap. by exists (e.1, v).
Qed.

Lemma Map_get_Map_set m k v k' :
  JS.Map_get (JS.Map_set m k v) k' = if decide (k' = k) then Some v else JS.Map_get m k'.
Proof.
  induction m as [|e m IH]; simpl.
  - rewrite Map_get_cons. simpl. repeat case_decide; congruence.
  - destruct (decide (e.1 = k)) as [He|He].
    + rewrite !Map_get_cons. simpl. repeat case_decide; congruence.
    + rewrite !Map_get_cons, IH. repeat case_decide; congruence.
Qed.

Lemma Map_get_Map_alter (f : V → V) m k k' :
  JS.Map_get (JS.Map_alter f m k) k'
  = if decide (k' = k) then f <$> JS.Map_get m k else JS.Map_get m k'.
Proof.
  induction m as [|e m IH]; [by case_decide|].
  change (JS.Map_alter f (e :: m) k)
    with ((if decide (e.1 = k) then (e.1, f e.2) else e) :: JS.Map_alter f m k).
  rewrite !Map_get_cons, IH.
  destruct (decide (e.1 = k)); simpl; repeat case_decide; simpl in *; congruence.
Qed.
End map_get_facts.

(** ** [analyzeSharedGenres] *)

Lemma addGenresOfGame_tagsOf gameDetails friendGenres g :
  GameMatcher.addGenresOfGame gameDetails friendGenres g
  = foldl JS.Set_add friendGenres (Spec.tagsOf gameDetails g).
Proof.
  unfold GameMatcher.addGenresOfGame, Spec.tagsOf. rewrite foldl_app.
  destruct (gameDetails ≫= _) as [details|]; simpl; [|done].
  by rewrite foldl_fmap.
Qed.

Lemma elem_of_genresOfGame gameDetails g genre :
  genre ∈ Spec.genresOfGame gameDetails g ↔ genre ∈ Spec.tagsOf gameDetails g.
Proof.
  unfold Spec.genresOfGame.
  rewrite addGenresOfGame_tagsOf, elem_of_foldl_Set_add, elem_of_nil. tauto.
Qed.

Lemma NoDup_friendGenresOf gameDetails friend :
  NoDup (GameMatcher.friendGenresOf gameDetails friend).
Proof.
  unfold GameMatcher.friendGenresOf.
  generalize (NoDup_nil_2 (A:=string)). generalize (@nil string).
  induction (GameMatcher.gamesOrEmpty friend) as [|g games IH]; intros s Hs; simpl;
    [done|].
  apply IH. rewrite addGenresOfGame_tagsOf. by apply NoDup_foldl_Set_add.
Qed.

(** A friend has a genre when one of the games of the library is tagged
    with it. *)
Lemma elem_of_friendGenresOf gameDetails friend genre :
  genre ∈ GameMatcher.friendGenresOf gameDetails friend
  ↔ Exists (λ g, genre ∈ Spec.genresOfGame gameDetails g)
           (GameMatcher.gamesOrEmpty friend).
Proof.
  unfold GameMatcher.friendGenresOf.
  enough (∀ s, genre ∈ foldl (GameMatcher.addGenresOfGame gameDetails) s
                          (GameMatcher.gamesOrEmpty friend)
               ↔ genre ∈ s ∨ Exists (λ g, genre ∈ Spec.genresOfGame gameDetails g)
                                    (GameMatcher.gamesOrEmpty friend)) as Hgen.
  { rewrite Hgen, elem_of_nil. tauto. }
  induction (GameMatcher.gamesOrEmpty friend) as [|g games IH]; intros s; simpl.
  - rewrite Exists_nil. tauto.
  - rewrite IH, Exists_cons, addGenresOfGame_tagsOf, elem_of_foldl_Set_add,
      elem_of_genresOfGame.
    tauto.
Qed.

(** One step of the counting loop. *)
Lemma countGenre_keys friend genreCounts genre :
  (GameMatcher.countGenre friend genreCounts genre).*1 = JS.Set_add genreCounts.*1 genre.
Proof.
  unfold GameMatcher.countGenre, JS.Set_add, JS.Map_has.
  rewrite Map_alter_keys. case_bool_decide.
  - by rewrite decide_True.
  - rewrite decide_False by done. by apply Map_set_keys_fresh.
Qed.

Lemma countGenre_get friend genreCounts genre g :
  JS.Map_get (GameMatcher.countGenre friend genreCounts genre) g
  = if decide (g = genre)
    then Some (GenreData.mk
                 (S (Spec.countOf genreCounts genre))
                 (JS.Set_add (from_option GenreData.friends []
                                (JS.Map_get genreCounts genre))
                             (Friend.name friend)))
    else JS.Map_get genreCounts g.
Proof.
  unfold GameMatcher.countGenre, Spec.countOf, JS.Map_has.
  rewrite Map_get_Map_alter. case_bool_decide as Hhas.
  - case_decide; [|done].
    apply Map_get_is_Some in Hhas as [data Hdata]. by rewrite Hdata.
  - rewrite !Map_get_Map_set. apply Map_get_None in Hhas.
    case_decide; [|done]. by rewrite decide_True, Hhas.
Qed.

Lemma countGenre_countOf friend genreCounts genre g :
  Spec.countOf (GameMatcher.countGenre friend genreCounts genre) g
  = if decide (g = genre) then S (Spec.countOf genreCounts g)
    else Spec.countOf genreCounts g.
Proof.
  unfold Spec.countOf at 1. rewrite countGenre_get. by case_decide; subst.
Qed.

Lemma countGenre_sizeOf friend genreCounts genre g :
  Spec.sizeOf (GameMatcher.countGenre friend genreCounts genre) g
  ≤ if decide (g = genre) then S (Spec.sizeOf genreCounts g)
    else Spec.sizeOf genreCounts g.
Proof.
  unfold Spec.sizeOf at 1. rewrite countGenre_get. case_decide; [subst|done].
  simpl. unfold Spec.sizeOf.
  destruct (JS.Map_get genreCounts genre) as [data|]; simpl.
  - apply length_Set_add.
  - lia.
Qed.

(** The counting loop over the genres of one friend. *)
Lemma countGenres_keys friend genres genreCounts :
  (foldl (GameMatcher.countGenre friend) genreCounts genres).*1
  = foldl JS.Set_add genreCounts.*1 genres.
Proof.
  revert genreCounts. induction genres as [|genre genres IH]; intros m; simpl; [done|].
  by rewrite IH, countGenre_keys.
Qed.

Lemma countGenres_countOf friend genres genreCounts g :
  NoDup genres →
  Spec.countOf (foldl (GameMatcher.countGenre friend) genreCounts genres) g
  = Spec.countOf genreCounts g + (if decide (g ∈ genres) then 1 else 0).
Proof.
  intros Hnodup. revert genreCounts.
  induction Hnodup as [|genre genres Hfresh Hnodup IH]; intros m; simpl.
  - lia.
  - rewrite IH, countGenre_countOf.
    destruct (decide (g = genre)) as [->|Hne].
    + rewrite decide_False by done. rewrite decide_True by elem_of_head.
      lia.
    + destruct (decide (g ∈ genres)) as [Hin|Hout].
      * rewrite decide_True by elem_of_tail. lia.
      * rewrite decide_False; [lia|]. by intros [?|?]%elem_of_cons.
Qed.

Lemma countGenres_sizeOf friend genres genreCounts g :
  NoDup genres →
  Spec.sizeOf (foldl (GameMatcher.countGenre friend) genreCounts genres) g
  ≤ Spec.sizeOf genreCounts g + (if decide (g ∈ genres) then 1 else 0).
Proof.
  intros Hnodup. revert genreCounts.
  induction Hnodup as [|genre genres Hfresh Hnodup IH]; intros m; simpl.
  - lia.
  - etrans; [apply IH|].
    pose proof (countGenre_sizeOf friend m genre g) as Hstep.
    destruct (decide (g = genre)) as [->|Hne].
    + rewrite decide_False by done. rewrite decide_True by elem_of_head.
      lia.
    + destruct (decide (g ∈ genres)) as [Hin|Hout].
      * rewrite decide_True by elem_of_tail. lia.
      * rewrite decide_False; [lia|]. by intros [?|?]%elem_of_cons.
Qed.

(** The whole bookkeeping: for every genre the counter is the number of
    friends who have the genre, and no more names are recorded than were
    counted. *)
Lemma genreCountsOf_spec gameDetails friends genre :
  NoDup (GameMatcher.genreCountsOf gameDetails friends).*1
  ∧ Spec.countOf (GameMatcher.genreCountsOf gameDetails friends) genre
    = length (filter (λ friend, genre ∈ GameMatcher.friendGenresOf gameDetails friend)
                     friends)
  ∧ Spec.sizeOf (GameMatcher.genreCountsOf gameDetails friends) genre
    ≤ Spec.countOf (GameMatcher.genreCountsOf gameDetails friends) genre.
Proof.
  unfold GameMatcher.genreCountsOf.
  set (step := λ genreCounts friend, foldl _ genreCounts _).
  enough (∀ m, NoDup m.*1 → Spec.sizeOf m genre ≤ Spec.countOf m genre →
    NoDup (foldl step m friends).*1
    ∧ Spec.countOf (foldl step m friends) genre
      = Spec.countOf m genre
        + length (filter (λ friend, genre ∈ GameMatcher.friendGenresOf gameDetails friend)
                         friends)
    ∧ Spec.sizeOf (foldl step m friends) genre
      ≤ Spec.countOf (foldl step m friends) genre) as Hgen.
  { apply (Hgen []); [apply NoDup_nil_2|done]. }
  induction friends as [|friend friends IH]; intros m Hkeys Hle; simpl.
  - split_and!; [done|lia|done].
  - pose proof (NoDup_friendGenresOf gameDetails friend) as Hnodup.
    pose proof (countGenres_countOf friend _ m genre Hnodup) as Hcount.
    pose proof (countGenres_sizeOf friend _ m genre Hnodup) as Hsize.
    destruct (IH (step m friend)) as (Hkeys' & Hcount' & Hle').
    + unfold step. rewrite countGenres_keys. by apply NoDup_foldl_Set_add.
    + unfold step. lia.
    + split_and!; [done| |done].
      rewrite Hcount'. unfold step at 1. rewrite Hcount, filter_cons.
      case_decide; simpl; lia.
Qed.

Lemma analyzeSharedGenres_elem_of friends gameDetails r :
  r ∈ GameMatcher.analyzeSharedGenres friends gameDetails →
  SharedGenre.count r
  = length (filter (λ friend, SharedGenre.genre r
                              ∈ GameMatcher.friendGenresOf gameDetails friend) friends)
  ∧ length friends ≤ SharedGenre.count r.
Proof.
  unfold GameMatcher.analyzeSharedGenres. rewrite sort_Permutation.
  intros ([genre data] & -> & [Hsize Hin]%list_elem_of_filter)%list_elem_of_fmap.
  simpl in *.
  destruct (genreCountsOf_spec gameDetails friends genre) as (Hkeys & Hcount & Hle).
  pose proof (Map_get_NoDup _ _ _ Hkeys Hin) as Hget.
  unfold Spec.countOf, Spec.sizeOf in *. rewrite Hget in *. simpl in *.
  split; [done|lia].
Qed.

(** Every element of the result counts all the friends. *)
Lemma analyzeSharedGenres_count friends gameDetails :
  Forall (λ r, SharedGenre.count r = length friends)
         (GameMatcher.analyzeSharedGenres friends gameDetails).
Proof.
  apply Forall_forall. intros r [Hcount Hge]%analyzeSharedGenres_elem_of.
  pose proof (length_filter
    (λ friend, SharedGenre.genre r ∈ GameMatcher.friendGenresOf gameDetails friend)
    friends).
  lia.
Qed.

(** C1, as the specification has it, fails: the library of the one friend
    holds two games tagged Action, and the count of Action is [1]. *)
Lemma count_is_not_the_number_of_tagged_games :
  ¬ Forall (λ r, SharedGenre.count r
                 = Spec.gamesTagged [Sample.friendD] None (SharedGenre.genre r))
           (GameMatcher.analyzeSharedGenres [Sample.friendD] None).
Proof.
  intros Hall.
  apply (Forall_lookup_1 _ _ 0 (SharedGenre.mk "Action" 1 ["D"%string])) in Hall;
    [|by vm_compute].
  vm_compute in Hall. discriminate.
Qed.

(** C1, amended: every element that [analyzeSharedGenres] returns has its
    [count] equal to the number of friends of the list who have at least one
    game tagged with the genre; the games are not counted. *)
Theorem analyzeSharedGenres_count_is_the_number_of_friends friends gameDetails :
  Forall (λ r, SharedGenre.count r
               = Spec.friendsTagged friends gameDetails (SharedGenre.genre r))
         (GameMatcher.analyzeSharedGenres friends gameDetails).
Proof.
  apply Forall_forall. intros r [Hcount _]%analyzeSharedGenres_elem_of.
  rewrite Hcount. unfold Spec.friendsTagged. f_equal.
  apply list_filter_iff. intros friend. apply elem_of_friendGenresOf.
Qed.

(** C10: when the display names of the friends are pairwise distinct, every
    element of the result of [analyzeSharedGenres] has [count] equal to the
    length of the friend list. *)
Theorem analyzeSharedGenres_count_is_the_length friends gameDetails :
  NoDup (Friend.name <$> friends) →
  Forall (λ r, SharedGenre.count r = length friends)
         (GameMatcher.analyzeSharedGenres friends gameDetails).
Proof. intros _. apply analyzeSharedGenres_count. Qed.

Lemma analyzeSharedGenres_count_is_the_length_witness :
  Forall (λ r, SharedGenre.count r = length [Sample.friendD; Sample.friendE])
         (GameMatcher.analyzeSharedGenres [Sample.friendD; Sample.friendE] None).
Proof.
  apply (analyzeSharedGenres_count_is_the_length [Sample.friendD; Sample.friendE] None).
  apply (bool_decide_unpack _). vm_compute. reflexivity.
Defined.

(** ** [findAlmostMatchedGames] *)

(** The filter keeps the games with one owner less than there are friends,
    and [ownerCount] is the number of recorded owners. *)
Lemma findAlmostMatchedGames_ownerCount friends :
  Forall (λ r, length (AlmostMatched.owners r) = length friends - 1
               ∧ AlmostMatched.ownerCount r = length (AlmostMatched.owners r))
         (GameMatcher.findAlmostMatchedGames friends).
Proof.
  unfold GameMatcher.findAlmostMatchedGames. case_bool_decide; [constructor|].
  rewrite sort_Permutation. apply Forall_fmap, Forall_forall.
  by intros e [Hlen _]%list_elem_of_filter.
Qed.

(** *** The bookkeeping of the owners *)

Lemma recordOwner_keys friend gameOwnership game :
  (GameMatcher.recordOwner friend gameOwnership game).*1
  = JS.Set_add gameOwnership.*1 (Game.appid game).
Proof.
  unfold GameMatcher.recordOwner, JS.Set_add, JS.Map_has.
  rewrite Map_alter_keys. case_bool_decide.
  - by rewrite decide_True.
  - rewrite decide_False by done. by apply Map_set_keys_fresh.
Qed.

Lemma recordOwner_owners friend gameOwnership game a :
  Spec.ownersOf (GameMatcher.recordOwner friend gameOwnership game) a
  = Spec.ownersOf gameOwnership a
    ++ (if decide (a = Game.appid game) then [Friend.name friend] else [])
  ∧ Spec.missingOf (GameMatcher.recordOwner friend gameOwnership game) a
    = Spec.missingOf gameOwnership a.
Proof.
  unfold Spec.ownersOf, Spec.missingOf, GameMatcher.recordOwner, JS.Map_has.
  rewrite Map_get_Map_alter. case_bool_decide as Hhas.
  - case_decide as Ha; [subst a|by rewrite app_nil_r].
    apply Map_get_is_Some in Hhas as [data Hdata]. by rewrite Hdata.
  - rewrite !Map_get_Map_set. apply Map_get_None in Hhas.
    case_decide as Ha; [subst a|by rewrite app_nil_r].
    by rewrite decide_True, Hhas.
Qed.

Lemma recordOwner_library friend games gameOwnership a :
  Spec.ownersOf (foldl (GameMatcher.recordOwner friend) gameOwnership games) a
  = Spec.ownersOf gameOwnership a
    ++ replicate (length (filter (λ g, Game.appid g = a) games)) (Friend.name friend)
  ∧ Spec.missingOf (foldl (GameMatcher.recordOwner friend) gameOwnership games) a
    = Spec.missingOf gameOwnership a
  ∧ (foldl (GameMatcher.recordOwner friend) gameOwnership games).*1
    = foldl JS.Set_add gameOwnership.*1 (Game.appid <$> games).
Proof.
  revert gameOwnership. induction games as [|g games IH]; intros m; simpl.
  - by rewrite app_nil_r.
  - destruct (IH (GameMatcher.recordOwner friend m g)) as (-> & -> & ->).
    destruct (recordOwner_owners friend m g a) as [-> ->].
    rewrite recordOwner_keys, filter_cons. split_and!; [|done..].
    rewrite <-app_assoc. f_equal.
    destruct (decide (a = Game.appid g)) as [->|Hne].
    + by rewrite decide_True.
    + rewrite decide_False by done. done.
Qed.

Lemma recordOwners_spec friends a :
  Spec.ownersOf (GameMatcher.recordOwners friends) a = friends ≫= Spec.ownerEntries a
  ∧ Spec.missingOf (GameMatcher.recordOwners friends) a = []
  ∧ NoDup (GameMatcher.recordOwners friends).*1.
Proof.
  unfold GameMatcher.recordOwners.
  set (step := λ gameOwnership friend, foldl _ gameOwnership _).
  enough (∀ m, NoDup m.*1 →
    Spec.ownersOf (foldl step m friends) a
    = Spec.ownersOf m a ++ (friends ≫= Spec.ownerEntries a)
    ∧ Spec.missingOf (foldl step m friends) a = Spec.missingOf m a
    ∧ NoDup (foldl step m friends).*1) as Hgen.
  { apply (Hgen []), NoDup_nil_2. }
  induction friends as [|friend friends IH]; intros m Hkeys; simpl.
  - by rewrite app_nil_r.
  - destruct (recordOwner_library friend (GameMatcher.gamesOrEmpty friend) m a)
      as (Howners & Hmissing & Hkeys').
    destruct (IH (step m friend)) as (-> & -> & ?).
    { unfold step. rewrite Hkeys'. by apply NoDup_foldl_Set_add. }
    unfold step at 1 2. rewrite Howners, Hmissing, <-app_assoc. done.
Qed.

Lemma findMissing_spec friends data :
  Ownership.owners (GameMatcher.findMissing friends data) = Ownership.owners data
  ∧ Ownership.missingOwners (GameMatcher.findMissing friends data)
    = Ownership.missingOwners data
      ++ filter (λ n, n ∉ Ownership.owners data) (Friend.name <$> friends).
Proof.
  unfold GameMatcher.findMissing. revert data.
  induction friends as [|friend friends IH]; intros data; simpl.
  - by rewrite app_nil_r.
  - rewrite filter_cons. destruct (decide (Friend.name friend ∈ Ownership.owners data)).
    + destruct (IH data) as [-> ->]. by rewrite decide_False by tauto.
    + destruct (IH (Ownership.mk (Ownership.game data) (Ownership.owners data)
                      (Ownership.missingOwners data ++ [Friend.name friend])))
        as [-> ->].
      simpl. rewrite decide_True by done. by rewrite <-app_assoc.
Qed.

(** Every entry lists one name for each record of the game in a library,
    and as missing the names of the friends that are not among them. *)
Lemma gameOwnershipOf_elem_of friends a data :
  (a, data) ∈ GameMatcher.gameOwnershipOf friends →
  Ownership.owners data = friends ≫= Spec.ownerEntries a
  ∧ Ownership.missingOwners data
    = filter (λ n, n ∉ Ownership.owners data) (Friend.name <$> friends).
Proof.
  unfold GameMatcher.gameOwnershipOf.
  intros ([a' data'] & Heq & Hin)%list_elem_of_fmap. simpl in Heq.
  injection Heq as -> ->.
  destruct (recordOwners_spec friends a') as (Howners & Hmissing & Hkeys).
  pose proof (Map_get_NoDup _ _ _ Hkeys Hin) as Hget.
  unfold Spec.ownersOf, Spec.missingOf in *. rewrite Hget in *. simpl in *.
  destruct (findMissing_spec friends data') as [-> ->].
  by rewrite Hmissing, Howners.
Qed.

Lemma length_filter_appid a (games : list Game.t) :
  NoDup (Game.appid <$> games) →
  length (filter (λ g, Game.appid g = a) games)
  = if decide (a ∈ Game.appid <$> games) then 1 else 0.
Proof.
  induction games as [|g games IH]; [done|].
  rewrite fmap_cons. intros [Hfresh Hnodup]%NoDup_cons. rewrite filter_cons.
  destruct (decide (Game.appid g = a)) as [<-|Hne].
  - rewrite decide_True by elem_of_head.
    simpl. rewrite IH by done. by rewrite decide_False.
  - rewrite IH by done. destruct (decide (a ∈ Game.appid <$> games)).
    + by rewrite decide_True by elem_of_tail.
    + rewrite decide_False; [done|]. by intros [?|?]%elem_of_cons.
Qed.

(** When no library repeats an application id, the owners of a game are the
    names of the friends who own it. *)
Lemma ownerEntries_NoDup a friends :
  Forall (λ friend, NoDup (Spec.owned friend)) friends →
  friends ≫= Spec.ownerEntries a
  = Friend.name <$> filter (λ friend, a ∈ Spec.owned friend) friends.
Proof.
  induction 1 as [|friend friends Hnodup _ IH]; [done|].
  rewrite bind_cons, filter_cons, IH. unfold Spec.ownerEntries at 1.
  rewrite length_filter_appid by done. fold (Spec.owned friend).
  by destruct (decide (a ∈ Spec.owned friend)).
Qed.

(** With pairwise distinct display names and libraries that hold each game
    once, the owners and the missing owners of a result are all the
    friends. *)
Lemma findAlmostMatchedGames_partition friends :
  NoDup (Friend.name <$> friends) →
  Forall (λ friend, NoDup (Spec.owned friend)) friends →
  Forall (λ r, length (AlmostMatched.owners r) + length (AlmostMatched.missingOwners r)
               = length friends
               ∧ length (AlmostMatched.owners r) = length friends - 1)
         (GameMatcher.findAlmostMatchedGames friends).
Proof.
  intros Hnames Hlibs.
  unfold GameMatcher.findAlmostMatchedGames. case_bool_decide; [constructor|].
  rewrite sort_Permutation. apply Forall_fmap, Forall_forall.
  intros [a data] [Hlen Hin]%list_elem_of_filter. simpl in *. split; [|done].
  apply gameOwnershipOf_elem_of in Hin as [Howners Hmissing].
  rewrite ownerEntries_NoDup in Howners by done.
  rewrite Hmissing. clear Hmissing Hlen.
  set (names := Friend.name <$> friends) in *.
  assert (filter (λ n, n ∈ Ownership.owners data) names ≡ₚ Ownership.owners data)
    as Hperm.
  { apply NoDup_Permutation.
    - by apply NoDup_filter.
    - rewrite Howners. eapply sublist_NoDup; [exact Hnames|].
      apply fmap_sublist, sublist_filter.
    - intros n. rewrite list_elem_of_filter. split; [tauto|].
      intros Hn. split; [done|]. rewrite Howners in Hn.
      apply list_elem_of_fmap in Hn as (friend & -> & [_ ?]%list_elem_of_filter).
      by apply list_elem_of_fmap_2. }
  pose proof (filter_app_complement (λ n, n ∈ Ownership.owners data) names) as Hsplit.
  apply Permutation_length in Hsplit. rewrite length_app in Hsplit.
  apply Permutation_length in Hperm.
  unfold names in Hsplit at 3. rewrite length_fmap in Hsplit. lia.
Qed.

(** C4 asks that the owners and the missing owners of every result add up
    to the number of friends.  On three friends of whom two have the same
    display name this fails: the first Sam and Alex own the game, the second
    Sam does not, and the game is returned with two owners and nobody
    missing, two names for three friends. *)
Theorem findAlmostMatchedGames_same_display_name :
  ∃ r, GameMatcher.findAlmostMatchedGames [Sample.sam1; Sample.sam2; Sample.alex] = [r]
       ∧ AlmostMatched.owners r = ["Sam"; "Alex"]%string
       ∧ AlmostMatched.missingOwners r = []
       ∧ length (AlmostMatched.owners r) + length (AlmostMatched.missingOwners r)
         ≠ length [Sample.sam1; Sample.sam2; Sample.alex].
Proof. eexists. split; [by vm_compute|]. by repeat split. Qed.

(** ** The recommendation request and the reply *)

(** C8: for a reply that reports success and carries recommendations, the
    handler renders one record for each entry, in the order of the entries;
    each record has the [name], [price], [overview], [reason] and [tags] of
    its entry, and [playerCount] is the [player_count] of the entry. *)
Theorem response_is_renamed_entry_by_entry data recs :
  Response.success data = true →
  Response.recommendations data = Some recs →
  ∃ out, App.handleGetAIRecommendations_response data = App.Rendered out
    ∧ length out = length recs
    ∧ Forall2 (λ rec r,
         Recommendation.name r = RawRecommendation.name rec
         ∧ Recommendation.price r = RawRecommendation.price rec
         ∧ Recommendation.overview r = RawRecommendation.overview rec
         ∧ Recommendation.reason r = RawRecommendation.reason rec
         ∧ Recommendation.playerCount r = RawRecommendation.player_count rec
         ∧ Recommendation.tags r = RawRecommendation.tags rec) recs out.
Proof.
  intros Hsuccess Hrecs. unfold App.handleGetAIRecommendations_response.
  rewrite Hsuccess, Hrecs. simpl. eexists. split_and!; [done|by rewrite length_fmap|].
  clear Hrecs. induction recs as [|rec recs IH]; simpl; constructor; [|done].
  by repeat split.
Qed.

Lemma response_is_renamed_entry_by_entry_witness :
  ∃ out, App.handleGetAIRecommendations_response Sample.reply = App.Rendered out
    ∧ length out = length Sample.entries
    ∧ Forall2 (λ rec r,
         Recommendation.name r = RawRecommendation.name rec
         ∧ Recommendation.price r = RawRecommendation.price rec
         ∧ Recommendation.overview r = RawRecommendation.overview rec
         ∧ Recommendation.reason r = RawRecommendation.reason rec
         ∧ Recommendation.playerCount r = RawRecommendation.player_count rec
         ∧ Recommendation.tags r = RawRecommendation.tags rec) Sample.entries out.
Proof.
  apply (response_is_renamed_entry_by_entry Sample.reply Sample.entries); reflexivity.
Defined.

(** C9: a request that is sent names at most ten games and at most five
    genres: the names of the first ten stored common games and the first
    five stored shared genres, in the stored order.  What is stored is what
    the last successful search for matches returned: the result of
    [findCommonGames] and the result of [analyzeSharedGenres]. *)
Theorem request_is_capped app selected req :
  App.handleGetAIRecommendations_request app selected = Some req →
  (length (Request.common_games req) ≤ 10
   ∧ length (Request.shared_genres req) ≤ 5
   ∧ Request.common_games req = CommonGame.name <$> take 10 (App.lastCommonGames app)
   ∧ Request.shared_genres req = SharedGenre.genre <$> take 5 (App.lastSharedGenres app)
   ∧ Request.friend_names req = Friend.name <$> selected)
  ∧ ∀ app0 friends commonGames,
      2 ≤ length friends →
      GameMatcher.findCommonGames friends = Some commonGames →
      app = App.handleFindMatches app0 friends →
      Request.common_games req = CommonGame.name <$> take 10 commonGames
      ∧ Request.shared_genres req
        = SharedGenre.genre <$> take 5 (GameMatcher.analyzeSharedGenres friends None).
Proof.
  unfold App.handleGetAIRecommendations_request.
  case_bool_decide; [done|]. intros [= <-]. simpl. split.
  - rewrite !length_fmap, !length_take. split_and!; [lia|lia|done..].
  - intros app0 friends commonGames Hlen Hcommon ->.
    unfold App.handleFindMatches. rewrite bool_decide_false by lia.
    by rewrite Hcommon.
Qed.

Lemma request_is_capped_witness :
  (length (Request.common_games Sample.request) ≤ 10
   ∧ length (Request.shared_genres Sample.request) ≤ 5
   ∧ Request.common_games Sample.request
     = CommonGame.name <$> take 10 (App.lastCommonGames Sample.searched)
   ∧ Request.shared_genres Sample.request
     = SharedGenre.genre <$> take 5 (App.lastSharedGenres Sample.searched)
   ∧ Request.friend_names Sample.request
     = Friend.name <$> [Sample.friendA; Sample.friendB; Sample.friendC])
  ∧ ∀ app0 friends commonGames,
      2 ≤ length friends →
      GameMatcher.findCommonGames friends = Some commonGames →
      Sample.searched = App.handleFindMatches app0 friends →
      Request.common_games Sample.request = CommonGame.name <$> take 10 commonGames
      ∧ Request.shared_genres Sample.request
        = SharedGenre.genre <$> take 5 (GameMatcher.analyzeSharedGenres friends None).
Proof.
  apply (request_is_capped Sample.searched
           [Sample.friendA; Sample.friendB; Sample.friendC] Sample.request).
  reflexivity.
Defined.

(** * Further properties of [GameMatcher] *)

(** ** The bookkeeping of [findAlmostMatchedGames], continued *)

Lemma find_app {A} (P : A → Prop) `{∀ x, Decision (P x)} (l k : list A) :
  JS.find P (l ++ k) = match JS.find P l with Some x => Some x | None => JS.find P k end.
Proof.
  induction l as [|x l IH]; [done|].
  unfold JS.find in *. simpl. destruct (decide (P x)); [done|].
  rewrite <-!option_fmap_compose.
  destruct (list_find P l) as [[? ?]|] eqn:Hl;
    destruct (list_find P (l ++ k)) as [[? ?]|] eqn:Hlk;
    destruct (list_find P k) as [[? ?]|] eqn:Hk; simpl in *; congruence.
Qed.

Lemma find_cons {A} (P : A → Prop) `{∀ x, Decision (P x)} x (l : list A) :
  JS.find P (x :: l) = if decide (P x) then Some x else JS.find P l.
Proof.
  unfold JS.find. simpl. destruct (decide (P x)); [done|].
  rewrite <-option_fmap_compose. by destruct (list_find P l) as [[? ?]|].
Qed.

Lemma recordOwner_recordOf friend gameOwnership game a :
  Spec.recordOf (GameMatcher.recordOwner friend gameOwnership game) a
  = match Spec.recordOf gameOwnership a with
    | Some g => Some g
    | None => if decide (Game.appid game = a) then Some game else None
    end.
Proof.
  unfold Spec.recordOf, GameMatcher.recordOwner, JS.Map_has.
  rewrite Map_get_Map_alter. case_bool_decide as Hhas.
  - apply Map_get_is_Some in Hhas as [data Hdata].
    destruct (decide (a = Game.appid game)) as [->|Hne]; [by rewrite Hdata|].
    destruct (JS.Map_get gameOwnership a); simpl; [done|].
    by rewrite decide_False.
  - rewrite !Map_get_Map_set. apply Map_get_None in Hhas.
    destruct (decide (a = Game.appid game)) as [->|Hne].
    + rewrite decide_True by done. rewrite Hhas. simpl. by rewrite decide_True.
    + destruct (JS.Map_get gameOwnership a); simpl; [done|]. by rewrite decide_False.
Qed.

Lemma recordOwner_library_recordOf friend games gameOwnership a :
  Spec.recordOf (foldl (GameMatcher.recordOwner friend) gameOwnership games) a
  = match Spec.recordOf gameOwnership a with
    | Some g => Some g
    | None => JS.find (λ g, Game.appid g = a) games
    end.
Proof.
  revert gameOwnership. induction games as [|g games IH]; intros m; simpl.
  - by destruct (Spec.recordOf m a).
  - rewrite IH, recordOwner_recordOf, find_cons.
    destruct (Spec.recordOf m a); [done|]. by case_decide.
Qed.

(** The entries are created in the order in which the application ids are
    met, and each keeps the first record met for its id. *)
Lemma recordOwners_keys friends :
  (GameMatcher.recordOwners friends).*1 = JS.new_Set (Spec.encounter friends).
Proof.
  unfold GameMatcher.recordOwners, JS.new_Set, Spec.encounter.
  change (@nil Z) with (@nil (Z * Ownership.t)).*1 at 1.
  generalize (@nil (Z * Ownership.t)).
  induction friends as [|friend friends IH]; intros m; [done|].
  rewrite bind_cons, foldl_app. cbn [foldl]. rewrite IH. f_equal.
  by destruct (recordOwner_library friend (GameMatcher.gamesOrEmpty friend) m 0)
    as (_ & _ & ->).
Qed.

Lemma recordOwners_recordOf friends a :
  Spec.recordOf (GameMatcher.recordOwners friends) a
  = JS.find (λ g, Game.appid g = a) (Spec.allGames friends).
Proof.
  unfold GameMatcher.recordOwners, Spec.allGames.
  enough (∀ m, Spec.recordOf
                 (foldl (λ gameOwnership friend,
                     foldl (GameMatcher.recordOwner friend) gameOwnership
                           (GameMatcher.gamesOrEmpty friend)) m friends) a
               = match Spec.recordOf m a with
                 | Some g => Some g
                 | None => JS.find (λ g, Game.appid g = a)
                                   (friends ≫= GameMatcher.gamesOrEmpty)
                 end) as Hgen.
  { by rewrite Hgen. }
  induction friends as [|friend friends IH]; intros m.
  - simpl. by destruct (Spec.recordOf m a).
  - rewrite bind_cons, find_app. cbn [foldl].
    rewrite IH, recordOwner_library_recordOf.
    destruct (Spec.recordOf m a); [done|]. by destruct (JS.find _ _).
Qed.

Lemma gameOwnershipOf_keys friends :
  (GameMatcher.gameOwnershipOf friends).*1 = JS.new_Set (Spec.encounter friends).
Proof.
  unfold GameMatcher.gameOwnershipOf. rewrite <-recordOwners_keys.
  rewrite <-list_fmap_compose. apply list_fmap_ext. by intros ? [? ?].
Qed.

Lemma findMissing_game friends data :
  Ownership.game (GameMatcher.findMissing friends data) = Ownership.game data.
Proof.
  unfold GameMatcher.findMissing. revert data.
  induction friends as [|friend friends IH]; intros data; simpl; [done|].
  rewrite IH. by case_decide.
Qed.

(** What an entry of the bookkeeping holds. *)
Lemma gameOwnershipOf_entry friends a data :
  (a, data) ∈ GameMatcher.gameOwnershipOf friends →
  JS.find (λ g, Game.appid g = a) (Spec.allGames friends) = Some (Ownership.game data)
  ∧ Game.appid (Ownership.game data) = a
  ∧ Ownership.owners data = friends ≫= Spec.ownerEntries a
  ∧ Ownership.missingOwners data
    = filter (λ n, n ∉ Ownership.owners data) (Friend.name <$> friends).
Proof.
  intros Hin. destruct (gameOwnershipOf_elem_of friends a data Hin) as [Howners Hmissing].
  assert (JS.find (λ g, Game.appid g = a) (Spec.allGames friends)
          = Some (Ownership.game data)) as Hfind.
  { unfold GameMatcher.gameOwnershipOf in Hin.
    apply list_elem_of_fmap in Hin as ([a' data'] & Heq & Hin). simpl in Heq.
    injection Heq as -> ->.
    destruct (recordOwners_spec friends a') as (_ & _ & Hkeys).
    pose proof (Map_get_NoDup _ _ _ Hkeys Hin) as Hget.
    rewrite <-recordOwners_recordOf. unfold Spec.recordOf. rewrite Hget. simpl.
    by rewrite findMissing_game. }
  split_and!; [done| |done|done].
  by apply find_Some_elem_of in Hfind as [_ ?].
Qed.

(** ** Results of [findAlmostMatchedGames] *)

Lemma findAlmostMatchedGames_elem_of friends r :
  r ∈ GameMatcher.findAlmostMatchedGames friends →
  3 ≤ length friends
  ∧ ∃ data, (AlmostMatched.appid r, data) ∈ GameMatcher.gameOwnershipOf friends
      ∧ length (Ownership.owners data) = length friends - 1
      ∧ r = AlmostMatched.mk (Ownership.game data) (Ownership.owners data)
              (Ownership.missingOwners data) (length (Ownership.owners data)).
Proof.
  unfold GameMatcher.findAlmostMatchedGames. case_bool_decide as Hlen.
  { by intros ?%elem_of_nil. }
  rewrite sort_Permutation.
  intros ([a data] & -> & [Hfilter Hin]%list_elem_of_filter)%list_elem_of_fmap.
  simpl in *. split; [lia|]. exists data. split_and!; [|done..].
  destruct (gameOwnershipOf_entry friends a data Hin) as (_ & Ha & _).
  unfold AlmostMatched.appid. simpl. by rewrite Ha.
Qed.

Lemma NoDup_fmap_elem_of_inj {A B} (f : A → B) (l : list A) x y :
  NoDup (f <$> l) → x ∈ l → y ∈ l → f x = f y → x = y.
Proof.
  intros Hnodup [i Hi]%list_elem_of_lookup [j Hj]%list_elem_of_lookup Heq.
  assert (i = j) as ->; [|congruence].
  apply (NoDup_lookup (f <$> l) i j (f x)); [done|..].
  - by rewrite list_lookup_fmap, Hi.
  - by rewrite list_lookup_fmap, Hj, Heq.
Qed.

Lemma filter_names_complement (P : Friend.t → Prop) `{∀ f, Decision (P f)}
    (owners : list string) (friends : list Friend.t) :
  (∀ friend, friend ∈ friends → Friend.name friend ∈ owners ↔ P friend) →
  filter (λ n, n ∉ owners) (Friend.name <$> friends)
  = Friend.name <$> filter (λ friend, ¬ P friend) friends.
Proof.
  induction friends as [|friend friends IH]; intros Hiff; [done|].
  rewrite fmap_cons, !filter_cons, IH by (intros; apply Hiff; elem_of_tail).
  destruct (Hiff friend) as [Hto Hfrom]; [elem_of_head|].
  destruct (decide (P friend)).
  - rewrite decide_False by tauto. by rewrite decide_False by tauto.
  - rewrite decide_True by tauto. by rewrite decide_True.
Qed.

(** X1.  With pairwise distinct display names and libraries that hold each game
    once, a result lists as owners the friends who own the game, in the
    order of the friend list, and as missing the one friend who does not. *)
Theorem findAlmostMatchedGames_owners_and_missing friends :
  NoDup (Friend.name <$> friends) →
  Forall (λ friend, NoDup (Spec.owned friend)) friends →
  Forall (λ r,
      AlmostMatched.owners r
      = Friend.name <$> filter (λ friend, AlmostMatched.appid r ∈ Spec.owned friend) friends
      ∧ AlmostMatched.missingOwners r
        = Friend.name
            <$> filter (λ friend, AlmostMatched.appid r ∉ Spec.owned friend) friends
      ∧ length (AlmostMatched.missingOwners r) = 1)
    (GameMatcher.findAlmostMatchedGames friends).
Proof.
  intros Hnames Hlibs. apply Forall_forall.
  intros r (Hlen & data & Hin & Howners & ->)%findAlmostMatchedGames_elem_of.
  unfold AlmostMatched.appid in *. simpl in *.
  set (a := Game.appid (Ownership.game data)) in *.
  destruct (gameOwnershipOf_entry friends a data Hin) as (_ & _ & Heq & Hmissing).
  rewrite ownerEntries_NoDup in Heq by done.
  assert (Ownership.missingOwners data
          = Friend.name <$> filter (λ friend, a ∉ Spec.owned friend) friends) as Hmiss.
  { rewrite Hmissing. apply (filter_names_complement (λ friend, a ∈ Spec.owned friend)).
    intros friend Hfriend. rewrite Heq. split.
    - intros (friend' & Hname & [Hown Hfriend']%list_elem_of_filter)%list_elem_of_fmap.
      by rewrite (NoDup_fmap_elem_of_inj Friend.name friends friend friend').
    - intros Hown. apply list_elem_of_fmap_2, list_elem_of_filter. done. }
  split_and!; [done|done|].
  rewrite Hmiss, length_fmap.
  pose proof (filter_app_complement (λ friend, a ∈ Spec.owned friend) friends) as Hsplit.
  apply Permutation_length in Hsplit. rewrite length_app in Hsplit.
  rewrite Heq, length_fmap in Howners. lia.
Qed.

Lemma findAlmostMatchedGames_owners_and_missing_witness :
  Forall (λ r,
      AlmostMatched.owners r
      = Friend.name
          <$> filter (λ friend, AlmostMatched.appid r ∈ Spec.owned friend)
                     [Sample.friendA; Sample.friendB; Sample.friendC]
      ∧ AlmostMatched.missingOwners r
        = Friend.name
            <$> filter (λ friend, AlmostMatched.appid r ∉ Spec.owned friend)
                       [Sample.friendA; Sample.friendB; Sample.friendC]
      ∧ length (AlmostMatched.missingOwners r) = 1)
    (GameMatcher.findAlmostMatchedGames [Sample.friendA; Sample.friendB; Sample.friendC]).
Proof.
  apply (findAlmostMatchedGames_owners_and_missing
           [Sample.friendA; Sample.friendB; Sample.friendC]).
  - apply (bool_decide_unpack _). vm_compute. reflexivity.
  - repeat constructor; apply (bool_decide_unpack _); vm_compute; reflexivity.
Defined.

(** X2.  The results are in order of non-increasing playtime of their record,
    results with the same playtime in the order in which their games are
    first met in the input; no game is listed twice, and the record of a
    result is the first record of the game in the input. *)
Theorem findAlmostMatchedGames_order friends :
  NoDup (AlmostMatched.appid <$> GameMatcher.findAlmostMatchedGames friends)
  ∧ StronglySorted (λ x y, (Spec.playtimeKey y ≤ Spec.playtimeKey x)%Z)
                   (GameMatcher.findAlmostMatchedGames friends)
  ∧ Forall (λ r, JS.find (λ g, Game.appid g = AlmostMatched.appid r)
                         (Spec.allGames friends) = Some (AlmostMatched.game r))
           (GameMatcher.findAlmostMatchedGames friends)
  ∧ ∀ i j x y, i < j →
      GameMatcher.findAlmostMatchedGames friends !! i = Some x →
      GameMatcher.findAlmostMatchedGames friends !! j = Some y →
      Spec.playtimeKey x = Spec.playtimeKey y →
      Spec.indexOf (AlmostMatched.appid x) (Spec.encounter friends)
      < Spec.indexOf (AlmostMatched.appid y) (Spec.encounter friends).
Proof.
  assert (∀ m : list (Z * Ownership.t),
    Forall (λ e, Game.appid (Ownership.game e.2) = e.1) m →
    AlmostMatched.appid
      <$> ((λ e, AlmostMatched.mk (Ownership.game e.2) (Ownership.owners e.2)
                   (Ownership.missingOwners e.2) (length (Ownership.owners e.2))) <$> m)
    = m.*1) as Hkeys.
  { intros m Hm. rewrite <-list_fmap_compose.
    induction Hm as [|e m He _ IH]; [done|]. rewrite !fmap_cons, IH. by f_equal. }
  assert (Forall (λ e, Game.appid (Ownership.game e.2) = e.1)
                 (GameMatcher.gameOwnershipOf friends)) as Hentries.
  { apply Forall_forall. intros [a data] Hin.
    by destruct (gameOwnershipOf_entry friends a data Hin) as (_ & ? & _). }
  split_and!.
  - unfold GameMatcher.findAlmostMatchedGames. case_bool_decide; [constructor|].
    rewrite sort_Permutation, Hkeys.
    + eapply sublist_NoDup; [|apply fmap_sublist, sublist_filter].
      rewrite gameOwnershipOf_keys. apply NoDup_new_Set.
    + apply Forall_forall. intros e [_ He]%list_elem_of_filter.
      by apply (proj1 (Forall_forall _ _) Hentries).
  - apply findAlmostMatchedGames_sorted.
  - apply Forall_forall.
    intros r (_ & data & Hin & _ & ->)%findAlmostMatchedGames_elem_of.
    unfold AlmostMatched.appid in *. simpl in *.
    by destruct (gameOwnershipOf_entry friends _ data Hin) as (? & _).
  - unfold GameMatcher.findAlmostMatchedGames. case_bool_decide; [done|].
    intros i j x y Hij Hi Hj Hsame.
    pose proof (lookup_lt_sublist _ _ _ _ _ Hij Hi Hj) as Hsub.
    apply (sort_stable _ Spec.playtimeKey (λ _, True)) in Hsub;
      [|done|by apply Forall_forall|done].
    apply (fmap_sublist AlmostMatched.appid) in Hsub.
    rewrite Hkeys in Hsub.
    2:{ apply Forall_forall. intros e [_ He]%list_elem_of_filter.
        by apply (proj1 (Forall_forall _ _) Hentries). }
    apply new_Set_order. rewrite <-gameOwnershipOf_keys.
    etrans; [exact Hsub|]. apply fmap_sublist, sublist_filter.
Qed.

(** ** Results of [findCommonGames] *)

Lemma gameMap_get_elem_of (games0 : list Game.t) (a : Z) :
  a ∈ Game.appid <$> games0 →
  ∃ g, JS.Map_get (JS.new_Map ((λ g, (Game.appid g, g)) <$> games0)) a = Some g
       ∧ g ∈ games0.
Proof.
  intros (g & Hg & _)%gameMap_get. exists g. split; [done|].
  apply Map_get_Some, elem_of_new_Map, list_elem_of_fmap in Hg as (g' & Heq & Hg').
  by simplify_eq.
Qed.

Lemma findCommonGames_results friend0 friend1 rest out :
  GameMatcher.findCommonGames (friend0 :: friend1 :: rest) = Some out →
  CommonGame.appid <$> out
  ≡ₚ Some <$> GameMatcher.commonAppIdsOf (friend0 :: friend1 :: rest) friend0
  ∧ Forall (λ r, CommonGame.ownerCount r = Some (length (friend0 :: friend1 :: rest))
                 ∧ ∃ g, CommonGame.game r = Some g
                        ∧ g ∈ GameMatcher.gamesOrEmpty friend0) out.
Proof.
  intros (games0 & commonGames & Hgames & HF & ->)%findCommonGames_many.
  rewrite !sort_Permutation.
  assert (∀ a, a ∈ GameMatcher.commonAppIdsOf (friend0 :: friend1 :: rest) friend0
               → a ∈ Game.appid <$> games0) as Hcids.
  { intros a Ha. apply elem_of_commonAppIdsOf in Ha; [|elem_of_head].
    apply Forall_cons in Ha as [Ha _]. revert Ha.
    unfold Spec.owned, GameMatcher.gamesOrEmpty. by rewrite Hgames. }
  split.
  - apply commonGames_fields in HF; [|done].
    enough (CommonGame.appid <$> commonGames
            = Some <$> GameMatcher.commonAppIdsOf (friend0 :: friend1 :: rest) friend0)
      as -> by done.
    clear Hcids. induction HF as [|???? (? & _) ? IH]; simpl; [done|]. by f_equal.
  - unfold GameMatcher.gamesOrEmpty. rewrite Hgames. simpl.
    set (friends := friend0 :: friend1 :: rest) in *.
    set (cids := GameMatcher.commonAppIdsOf friends friend0) in *. clearbody cids.
    induction HF as [|a r cids commonGames Hr HF IH]; [constructor|].
    constructor; [|apply IH; intros; apply Hcids; elem_of_tail].
    destruct (gameMap_get_elem_of games0 a) as (g & Hget & Hg); [apply Hcids; elem_of_head|].
    unfold GameMatcher.commonGameOf in Hr. rewrite Hget in Hr.
    destruct (GameMatcher.totalPlaytimeOf _ a); simplify_eq/=.
    split; [done|]. by exists g.
Qed.

Lemma length_ownerEntries friends a :
  Forall (λ friend, a ∈ Spec.owned friend) friends →
  length friends ≤ length (friends ≫= Spec.ownerEntries a).
Proof.
  induction 1 as [|friend friends Hown _ IH]; [done|].
  rewrite bind_cons, length_app. simpl.
  enough (1 ≤ length (Spec.ownerEntries a friend)) by lia.
  unfold Spec.ownerEntries, Spec.owned in *. rewrite length_replicate.
  apply list_elem_of_fmap in Hown as (g & -> & Hg).
  induction (GameMatcher.gamesOrEmpty friend) as [|g' games IHg];
    [by apply elem_of_nil in Hg|].
  rewrite filter_cons. destruct (decide (Game.appid g' = Game.appid g)); simpl; [lia|].
  apply IHg. apply elem_of_cons in Hg as [->|?]; done.
Qed.

(** X3.  A game that every friend owns is never reported as almost matched. *)
Theorem common_games_are_not_almost_matched friends out :
  GameMatcher.findCommonGames friends = Some out →
  Forall (λ r, Some (AlmostMatched.appid r) ∉ CommonGame.appid <$> out)
         (GameMatcher.findAlmostMatchedGames friends).
Proof.
  intros Hout. apply Forall_forall.
  intros r (Hlen & data & Hin & Howners & _)%findAlmostMatchedGames_elem_of Hcommon.
  destruct friends as [|friend0 [|friend1 rest]]; [simpl in Hlen; lia..|].
  apply findCommonGames_results in Hout as [Hperm _].
  rewrite Hperm in Hcommon. apply list_elem_of_fmap_inj in Hcommon; [|apply _].
  apply elem_of_commonAppIdsOf in Hcommon; [|elem_of_head].
  apply length_ownerEntries in Hcommon.
  destruct (gameOwnershipOf_entry _ _ data Hin) as (_ & _ & Heq & _).
  rewrite Heq in Howners. lia.
Qed.

Lemma common_games_are_not_almost_matched_witness :
  Forall (λ r, Some (AlmostMatched.appid r)
               ∉ CommonGame.appid
                   <$> [CommonGame.mk (Some (Sample.game 2 "Half-Life" 120))
                          (Some (JS.Num 165)) (Some (JS.Num 55)) (Some 3)])
         (GameMatcher.findAlmostMatchedGames
            [Sample.friendA; Sample.friendB; Sample.friendC]).
Proof.
  apply (common_games_are_not_almost_matched
           [Sample.friendA; Sample.friendB; Sample.friendC]).
  reflexivity.
Defined.

(** X4.  With two friends or more, every common game is listed once, with the
    number of friends as [ownerCount] and with a record of the library of
    the first friend. *)
Theorem findCommonGames_lists_each_game_once friends friend0 out :
  2 ≤ length friends →
  head friends = Some friend0 →
  GameMatcher.findCommonGames friends = Some out →
  NoDup (CommonGame.appid <$> out)
  ∧ length out ≤ length (GameMatcher.gamesOrEmpty friend0)
  ∧ Forall (λ r, CommonGame.ownerCount r = Some (length friends)
                 ∧ ∃ g, CommonGame.game r = Some g
                        ∧ g ∈ GameMatcher.gamesOrEmpty friend0) out.
Proof.
  intros Hlen Hhead Hout.
  destruct friends as [|friend0' [|friend1 rest]]; [simpl in Hlen; lia..|].
  simpl in Hhead. injection Hhead as ->.
  apply findCommonGames_results in Hout as [Hperm Hfields].
  assert (NoDup (GameMatcher.commonAppIdsOf (friend0 :: friend1 :: rest) friend0))
    as Hnodup.
  { unfold GameMatcher.commonAppIdsOf. apply NoDup_filter, NoDup_new_Set. }
  split_and!; [|clear Hfields|done].
  - rewrite Hperm. by apply (NoDup_fmap_2 Some).
  - apply Permutation_length in Hperm. rewrite !length_fmap in Hperm. rewrite Hperm.
    rewrite <-(length_fmap Game.appid (GameMatcher.gamesOrEmpty friend0)).
    apply submseteq_length, NoDup_submseteq; [done|].
    intros a Ha. apply elem_of_commonAppIdsOf in Ha; [|elem_of_head].
    by apply Forall_cons in Ha as [Ha _].
Qed.

Lemma findCommonGames_lists_each_game_once_witness :
  NoDup (CommonGame.appid
           <$> [CommonGame.mk (Some (Sample.game 2 "Half-Life" 120))
                  (Some (JS.Num 165)) (Some (JS.Num 55)) (Some 3)])
  ∧ length [CommonGame.mk (Some (Sample.game 2 "Half-Life" 120))
              (Some (JS.Num 165)) (Some (JS.Num 55)) (Some 3)]
    ≤ length (GameMatcher.gamesOrEmpty Sample.friendA)
  ∧ Forall (λ r, CommonGame.ownerCount r
                 = Some (length [Sample.friendA; Sample.friendB; Sample.friendC])
                 ∧ ∃ g, CommonGame.game r = Some g
                        ∧ g ∈ GameMatcher.gamesOrEmpty Sample.friendA)
           [CommonGame.mk (Some (Sample.game 2 "Half-Life" 120))
              (Some (JS.Num 165)) (Some (JS.Num 55)) (Some 3)].
Proof.
  apply (findCommonGames_lists_each_game_once
           [Sample.friendA; Sample.friendB; Sample.friendC] Sample.friendA).
  - simpl. lia.
  - reflexivity.
  - reflexivity.
Defined.

(** X5.  With two friends or more the call throws exactly when the first friend
    has no [games] array; a later friend without one only empties the
    result. *)
Theorem findCommonGames_throws_iff friends friend0 :
  2 ≤ length friends →
  head friends = Some friend0 →
  (GameMatcher.findCommonGames friends = None ↔ Friend.games friend0 = None)
  ∧ ∀ friend out, friend ∈ friends → GameMatcher.gamesOrEmpty friend = [] →
      GameMatcher.findCommonGames friends = Some out → out = [].
Proof.
  intros Hlen Hhead.
  destruct friends as [|friend0' [|friend1 rest]]; [simpl in Hlen; lia..|].
  simpl in Hhead. injection Hhead as ->. split.
  - split.
    + intros Hnone. destruct (Friend.games friend0) as [games0|] eqn:Hgames; [|done].
      exfalso. unfold GameMatcher.findCommonGames in Hnone. rewrite Hgames in Hnone.
      simpl in Hnone.
      destruct (mapM_is_Some_2
        (GameMatcher.commonGameOf (friend0 :: friend1 :: rest)
           (JS.new_Map ((λ g, (Game.appid g, g)) <$> games0)))
        (GameMatcher.commonAppIdsOf (friend0 :: friend1 :: rest) friend0))
        as [cs Hcs]; [|by rewrite Hcs in Hnone].
      apply Forall_forall. intros a Ha. simpl. unfold GameMatcher.commonGameOf.
      destruct (totalPlaytimeOf_is_Some (friend0 :: friend1 :: rest) a) as [t ->];
        [|by eexists].
      apply elem_of_commonAppIdsOf in Ha; [|elem_of_head].
      eapply Forall_impl; [exact Ha|]. intros friend. simpl.
      unfold Spec.owned, Spec.has_library, GameMatcher.gamesOrEmpty.
      destruct (Friend.games friend); [by eexists|]. by intros ?%elem_of_nil.
    + intros Hgames. unfold GameMatcher.findCommonGames. by rewrite Hgames.
  - intros friend out Hfriend Hempty [Hperm _]%findCommonGames_results.
    destruct (GameMatcher.commonAppIdsOf (friend0 :: friend1 :: rest) friend0)
      as [|a cids] eqn:Hcids.
    + apply Permutation_nil_r in Hperm. by destruct out.
    + exfalso. assert (a ∈ GameMatcher.commonAppIdsOf (friend0 :: friend1 :: rest) friend0)
        as Ha by (rewrite Hcids; elem_of_head).
      apply elem_of_commonAppIdsOf in Ha; [|elem_of_head].
      rewrite Forall_forall in Ha. specialize (Ha friend Hfriend).
      unfold Spec.owned in Ha. rewrite Hempty in Ha. by apply elem_of_nil in Ha.
Qed.

Lemma findCommonGames_throws_iff_witness :
  (GameMatcher.findCommonGames [Sample.friendA; Sample.sam2] = None
   ↔ Friend.games Sample.friendA = None)
  ∧ ∀ friend out, friend ∈ [Sample.friendA; Sample.sam2] →
      GameMatcher.gamesOrEmpty friend = [] →
      GameMatcher.findCommonGames [Sample.friendA; Sample.sam2] = Some out → out = [].
Proof.
  apply (findCommonGames_throws_iff [Sample.friendA; Sample.sam2] Sample.friendA).
  - simpl. lia.
  - reflexivity.
Defined.

(** ** Sets built from lists, continued *)

Section new_Set_facts.
Context {A : Type} `{EqDecision A}.
Implicit Types (s l : list A).

Lemma foldl_Set_add_fresh l s :
  NoDup l → (∀ x, x ∈ l → x ∉ s) → foldl JS.Set_add s l = s ++ l.
Proof.
  intros Hnodup. revert s.
  induction Hnodup as [|x l Hx Hnodup IH]; intros s Hfresh; simpl.
  - by rewrite app_nil_r.
  - unfold JS.Set_add at 2. rewrite decide_False by (apply Hfresh; elem_of_head).
    rewrite IH, <-app_assoc; [done|].
    intros y Hy [Hs| ->%list_elem_of_singleton]%elem_of_app; [|done].
    by apply (Hfresh y); [elem_of_tail|].
Qed.

Lemma new_Set_NoDup l : NoDup l → JS.new_Set l = l.
Proof.
  intros Hnodup. unfold JS.new_Set. rewrite foldl_Set_add_fresh; [done..|].
  intros x _. apply not_elem_of_nil.
Qed.

Lemma new_Set_submseteq l : JS.new_Set l ⊆+ l.
Proof.
  apply NoDup_submseteq; [apply NoDup_new_Set|].
  intros x. by rewrite elem_of_new_Set.
Qed.

Lemma new_Set_length_NoDup l : length l ≤ length (JS.new_Set l) → NoDup l.
Proof.
  intros Hlen.
  rewrite <-(submseteq_length_Permutation _ _ (new_Set_submseteq l) Hlen).
  apply NoDup_new_Set.
Qed.

Lemma foldl_Set_add_position l s a b :
  NoDup s → [a; b] `sublist_of` foldl JS.Set_add s l →
  [a; b] `sublist_of` s
  ∨ (a ∈ s ∧ (b ∉ s) ∧ b ∈ l)
  ∨ ((a ∉ s) ∧ (b ∉ s) ∧ Spec.position a l < Spec.position b l).
Proof.
  revert s. induction l as [|x l IH]; intros s Hs Hsub; simpl in *; [by left|].
  destruct (IH _ (NoDup_Set_add s x Hs) Hsub)
    as [Hin|[(Ha & Hb & Hbl)|(Ha & Hb & Hlt)]]; clear IH Hsub.
  - revert Hin. unfold JS.Set_add. case_decide as Hx; [by left|].
    intros (l1 & l2 & Heq & H1 & H2)%sublist_app_r.
    destruct l1 as [|a' [|b' l1]]; simplify_eq/=.
    + apply sublist_length in H2. simpl in H2. lia.
    + right; left. apply singleton_sublist_l in H1.
      apply singleton_sublist_l, list_elem_of_singleton in H2 as ->.
      split_and!; [done|done|elem_of_head].
    + destruct l1; [|done]. simplify_eq/=. by left.
  - rewrite elem_of_Set_add in Ha, Hb.
    assert ((b ∉ s) ∧ b ≠ x) as [Hbs Hbx] by tauto.
    destruct (decide (a ∈ s)) as [Has|Has].
    + right; left. split_and!; [done|done|elem_of_tail].
    + right; right. destruct Ha as [?| ->]; [done|].
      split_and!; [done|done|]. rewrite !decide_True by done.
      rewrite decide_False by done. lia.
  - rewrite elem_of_Set_add in Ha, Hb.
    right; right. split_and!; [tauto|tauto|].
    rewrite !decide_False by (intros ->; tauto). lia.
Qed.

Lemma new_Set_position l a b :
  [a; b] `sublist_of` JS.new_Set l → Spec.position a l < Spec.position b l.
Proof.
  intros Hsub. unfold JS.new_Set in Hsub.
  apply foldl_Set_add_position in Hsub as [Hsub|[(Ha & _)|(_ & _ & Hlt)]];
    [|by apply elem_of_nil in Ha|done|apply NoDup_nil_2].
  apply sublist_nil_r in Hsub. done.
Qed.

Lemma length_filter_all (P : A → Prop) `{∀ x, Decision (P x)} l :
  length l ≤ length (filter P l) → filter P l = l.
Proof.
  induction l as [|x l IH]; [done|]. rewrite filter_cons.
  pose proof (length_filter P l). destruct (decide (P x)); simpl; intros Hlen.
  - f_equal. apply IH. lia.
  - lia.
Qed.
End new_Set_facts.

(** ** Results of [analyzeSharedGenres] *)

Lemma countGenre_namesOf friend genreCounts genre g :
  Spec.namesOf (GameMatcher.countGenre friend genreCounts genre) g
  = if decide (g = genre)
    then JS.Set_add (Spec.namesOf genreCounts g) (Friend.name friend)
    else Spec.namesOf genreCounts g.
Proof. unfold Spec.namesOf. rewrite countGenre_get. by case_decide; subst. Qed.

Lemma countGenres_namesOf friend genres genreCounts g :
  NoDup genres →
  Spec.namesOf (foldl (GameMatcher.countGenre friend) genreCounts genres) g
  = if decide (g ∈ genres)
    then JS.Set_add (Spec.namesOf genreCounts g) (Friend.name friend)
    else Spec.namesOf genreCounts g.
Proof.
  intros Hnodup. revert genreCounts.
  induction Hnodup as [|genre genres Hfresh Hnodup IH]; intros m; simpl; [done|].
  rewrite IH, !countGenre_namesOf.
  destruct (decide (g = genre)) as [->|Hne].
  - rewrite decide_False by done. by rewrite decide_True by elem_of_head.
  - destruct (decide (g ∈ genres)).
    + by rewrite decide_True by elem_of_tail.
    + rewrite decide_False; [done|]. by intros [?|?]%elem_of_cons.
Qed.

Lemma genreCountsOf_namesOf gameDetails friends g :
  Spec.namesOf (GameMatcher.genreCountsOf gameDetails friends) g
  = JS.new_Set (Friend.name
                  <$> filter (λ friend, g ∈ GameMatcher.friendGenresOf gameDetails friend)
                             friends).
Proof.
  unfold GameMatcher.genreCountsOf, JS.new_Set.
  change (@nil string) with (Spec.namesOf [] g) at 1.
  generalize (@nil (string * GenreData.t)).
  induction friends as [|friend friends IH]; intros m; [done|].
  cbn [foldl]. rewrite IH, countGenres_namesOf by apply NoDup_friendGenresOf.
  rewrite filter_cons. by case_decide.
Qed.

Lemma genreCountsOf_keys gameDetails friends :
  (GameMatcher.genreCountsOf gameDetails friends).*1
  = JS.new_Set (Spec.genreEncounter gameDetails friends).
Proof.
  unfold GameMatcher.genreCountsOf, JS.new_Set, Spec.genreEncounter.
  change (@nil string) with (@nil (string * GenreData.t)).*1 at 1.
  generalize (@nil (string * GenreData.t)).
  induction friends as [|friend friends IH]; intros m; [done|].
  rewrite bind_cons, foldl_app. cbn [foldl]. by rewrite IH, countGenres_keys.
Qed.

(** What it takes for a genre to be in the result. *)
Lemma analyzeSharedGenres_elem_of_iff friends gameDetails r :
  r ∈ GameMatcher.analyzeSharedGenres friends gameDetails ↔
  SharedGenre.genre r ∈ Spec.genreEncounter gameDetails friends
  ∧ SharedGenre.friends r
    = JS.new_Set (Friend.name
                    <$> filter (λ friend, SharedGenre.genre r
                                          ∈ GameMatcher.friendGenresOf gameDetails friend)
                               friends)
  ∧ length (SharedGenre.friends r) = length friends
  ∧ SharedGenre.count r
    = length (filter (λ friend, SharedGenre.genre r
                                ∈ GameMatcher.friendGenresOf gameDetails friend) friends).
Proof.
  destruct (genreCountsOf_spec gameDetails friends (SharedGenre.genre r))
    as (Hkeys & Hcount & _).
  pose proof (genreCountsOf_namesOf gameDetails friends (SharedGenre.genre r)) as Hnames.
  unfold GameMatcher.analyzeSharedGenres. rewrite sort_Permutation.
  rewrite list_elem_of_fmap. split.
  - intros ([genre data] & -> & [Hsize Hin]%list_elem_of_filter). simpl in *.
    pose proof (Map_get_NoDup _ _ _ Hkeys Hin) as Hget.
    unfold Spec.countOf, Spec.namesOf in *. rewrite Hget in *. simpl in *.
    split_and!; [|done..].
    apply elem_of_new_Set. rewrite <-genreCountsOf_keys.
    apply list_elem_of_fmap. by exists (genre, data).
  - intros (Hgenre & Hfriends & Hsize & Hr).
    apply elem_of_new_Set in Hgenre. rewrite <-genreCountsOf_keys in Hgenre.
    apply Map_get_is_Some in Hgenre as [data Hget].
    unfold Spec.countOf, Spec.namesOf in *. rewrite Hget in *. simpl in *.
    exists (SharedGenre.genre r, data). split.
    + destruct r. simpl in *. congruence.
    + apply list_elem_of_filter. simpl. split; [congruence|].
      by apply Map_get_Some.
Qed.

Lemma analyzeSharedGenres_elem_of_all friends gameDetails r :
  r ∈ GameMatcher.analyzeSharedGenres friends gameDetails →
  NoDup (Friend.name <$> friends)
  ∧ Forall (λ friend, SharedGenre.genre r
                      ∈ GameMatcher.friendGenresOf gameDetails friend) friends
  ∧ SharedGenre.friends r = Friend.name <$> friends
  ∧ SharedGenre.genre r ∈ Spec.genreEncounter gameDetails friends.
Proof.
  intros (Hgenre & Hfriends & Hsize & _)%analyzeSharedGenres_elem_of_iff.
  set (P := λ friend, SharedGenre.genre r
                      ∈ GameMatcher.friendGenresOf gameDetails friend) in *.
  pose proof (submseteq_length _ _ (new_Set_submseteq (Friend.name <$> filter P friends)))
    as Hle.
  rewrite <-Hfriends, Hsize, length_fmap in Hle.
  pose proof (length_filter_all P friends Hle) as Hall.
  rewrite Hall in Hfriends.
  assert (NoDup (Friend.name <$> friends)) as Hnodup.
  { apply new_Set_length_NoDup. rewrite <-Hfriends, Hsize. by rewrite length_fmap. }
  split_and!; [done| |by rewrite Hfriends, new_Set_NoDup|done].
  rewrite <-Hall. apply Forall_forall. by intros friend [? _]%list_elem_of_filter.
Qed.

(** X6.  Two friends with the same display name leave no shared genre: the
    names are collected in a set, which then stays smaller than the friend
    list. *)
Theorem analyzeSharedGenres_duplicate_names friends gameDetails :
  ¬ NoDup (Friend.name <$> friends) →
  GameMatcher.analyzeSharedGenres friends gameDetails = [].
Proof.
  intros Hdup.
  destruct (GameMatcher.analyzeSharedGenres friends gameDetails) as [|r l] eqn:Hresult;
    [done|].
  destruct (analyzeSharedGenres_elem_of_all friends gameDetails r) as [Hnodup _];
    [rewrite Hresult; elem_of_head|done].
Qed.

Lemma analyzeSharedGenres_duplicate_names_witness :
  GameMatcher.analyzeSharedGenres [Sample.samD; Sample.samE] None = [].
Proof.
  apply (analyzeSharedGenres_duplicate_names [Sample.samD; Sample.samE] None).
  apply (bool_decide_unpack _). vm_compute. reflexivity.
Defined.

(** X7.  Every element of the result names all the friends, in the order of the
    friend list, and its genre tags a game of every friend; no genre is
    listed twice, and the genres stand in the order in which the counting
    loop first met them. *)
Theorem analyzeSharedGenres_results friends gameDetails :
  Forall (λ r, SharedGenre.friends r = Friend.name <$> friends
               ∧ Forall (λ friend,
                     Exists (λ g, SharedGenre.genre r ∈ Spec.genresOfGame gameDetails g)
                            (GameMatcher.gamesOrEmpty friend)) friends)
         (GameMatcher.analyzeSharedGenres friends gameDetails)
  ∧ NoDup (SharedGenre.genre <$> GameMatcher.analyzeSharedGenres friends gameDetails)
  ∧ ∀ i j x y, i < j →
      GameMatcher.analyzeSharedGenres friends gameDetails !! i = Some x →
      GameMatcher.analyzeSharedGenres friends gameDetails !! j = Some y →
      Spec.position (SharedGenre.genre x) (Spec.genreEncounter gameDetails friends)
      < Spec.position (SharedGenre.genre y) (Spec.genreEncounter gameDetails friends).
Proof.
  assert (∀ m : list (string * GenreData.t),
    SharedGenre.genre
      <$> ((λ e, SharedGenre.mk e.1 (GenreData.count e.2) (GenreData.friends e.2)) <$> m)
    = m.*1) as Hkeys.
  { intros m. rewrite <-list_fmap_compose. by apply list_fmap_ext. }
  split_and!.
  - apply Forall_forall.
    intros r (_ & Hall & Hfriends & _)%analyzeSharedGenres_elem_of_all.
    split; [done|]. eapply Forall_impl; [exact Hall|].
    intros friend. simpl. by rewrite elem_of_friendGenresOf.
  - unfold GameMatcher.analyzeSharedGenres. rewrite sort_Permutation, Hkeys.
    eapply sublist_NoDup; [|apply fmap_sublist, sublist_filter].
    rewrite genreCountsOf_keys. apply NoDup_new_Set.
  - intros i j x y Hij Hi Hj.
    pose proof (analyzeSharedGenres_count friends gameDetails) as Hcount.
    rewrite Forall_forall in Hcount.
    assert (SharedGenre.count x = SharedGenre.count y) as Hsame.
    { rewrite !Hcount; [done|by eapply list_elem_of_lookup_2..]. }
    pose proof (lookup_lt_sublist _ _ _ _ _ Hij Hi Hj) as Hsub.
    unfold GameMatcher.analyzeSharedGenres in Hsub.
    apply (sort_stable _ (λ r, Z.of_nat (SharedGenre.count r)) (λ _, True)) in Hsub;
      [|done|by apply Forall_forall|by rewrite Hsame].
    apply (fmap_sublist SharedGenre.genre) in Hsub. rewrite Hkeys in Hsub.
    apply new_Set_position. rewrite <-genreCountsOf_keys.
    etrans; [exact Hsub|]. apply fmap_sublist, sublist_filter.
Qed.

(** X8.  For a nonempty list of friends with pairwise distinct display names,
    the genres of the result are exactly those that tag a game of every
    friend. *)
Theorem analyzeSharedGenres_genres friends gameDetails genre :
  friends ≠ [] →
  NoDup (Friend.name <$> friends) →
  genre ∈ SharedGenre.genre <$> GameMatcher.analyzeSharedGenres friends gameDetails
  ↔ Forall (λ friend, Exists (λ g, genre ∈ Spec.genresOfGame gameDetails g)
                             (GameMatcher.gamesOrEmpty friend)) friends.
Proof.
  intros Hne Hnodup. split.
  - intros (r & -> & (_ & Hall & _)%analyzeSharedGenres_elem_of_all)%list_elem_of_fmap.
    eapply Forall_impl; [exact Hall|].
    intros friend. simpl. by rewrite elem_of_friendGenresOf.
  - intros Hall.
    assert (Forall (λ friend, genre ∈ GameMatcher.friendGenresOf gameDetails friend) friends)
      as Hall'.
    { eapply Forall_impl; [exact Hall|]. intros friend. simpl.
      by rewrite elem_of_friendGenresOf. }
    assert (filter (λ friend, genre ∈ GameMatcher.friendGenresOf gameDetails friend) friends
            = friends) as Hfilter.
    { clear -Hall'. induction Hall' as [|friend friends Hf _ IH]; [done|].
      rewrite filter_cons, decide_True by done. by f_equal. }
    apply list_elem_of_fmap.
    exists (SharedGenre.mk genre (length friends) (Friend.name <$> friends)).
    split; [done|]. apply analyzeSharedGenres_elem_of_iff. simpl.
    rewrite Hfilter, new_Set_NoDup by done. split_and!; [|done|by rewrite length_fmap|done].
    destruct friends as [|friend friends']; [done|].
    unfold Spec.genreEncounter. rewrite bind_cons. apply elem_of_app. left.
    by apply Forall_cons in Hall' as [? _].
Qed.

Lemma analyzeSharedGenres_genres_witness :
  "Action"%string
  ∈ SharedGenre.genre
      <$> GameMatcher.analyzeSharedGenres [Sample.friendD; Sample.friendE] None
  ↔ Forall (λ friend, Exists (λ g, "Action"%string ∈ Spec.genresOfGame None g)
                             (GameMatcher.gamesOrEmpty friend))
           [Sample.friendD; Sample.friendE].
Proof.
  apply (analyzeSharedGenres_genres [Sample.friendD; Sample.friendE] None "Action").
  - discriminate.
  - apply (bool_decide_unpack _). vm_compute. reflexivity.
Defined.

(** ** [inferGenresFromName] and substrings *)

Lemma string_append_assoc (s1 s2 s3 : string) :
  ((s1 ++ s2) ++ s3 = s1 ++ s2 ++ s3)%string.
Proof.
  induction s1 as [|c s1 IH]; [done|].
  change (String c ((s1 ++ s2) ++ s3) = String c (s1 ++ s2 ++ s3))%string.
  by f_equal.
Qed.

Lemma prefix_append (word s : string) :
  String.prefix word s = true ↔ ∃ post, s = (word ++ post)%string.
Proof.
  revert s. induction word as [|c word IH]; intros s.
  - split; [intros _; by exists s|by destruct s].
  - destruct s as [|c' s]; [split; [done|by intros [? ?]]|].
    cbn [String.prefix String.append].
    destruct (Ascii.ascii_dec c c') as [->|Hne].
    + rewrite IH. split; intros [post Hpost]; exists post; [by rewrite Hpost|].
      by injection Hpost.
    + split; [done|]. intros [post Hpost]. by injection Hpost.
Qed.

(** [includes] finds the substrings. *)
Lemma includes_substring (s word : string) :
  JS.includes s word = true ↔ ∃ pre post, s = (pre ++ word ++ post)%string.
Proof.
  assert (∀ s, JS.includes s word
               = String.prefix word s
                 || match s with
                    | EmptyString => false
                    | String _ s' => JS.includes s' word
                    end) as Hunfold by (by intros []).
  induction s as [|c s IH]; rewrite Hunfold.
  - rewrite orb_false_r, prefix_append. split.
    + intros [post ->]. by exists EmptyString, post.
    + intros ([|? pre] & post & Heq); [by exists post|done].
  - rewrite orb_true_iff, prefix_append, IH. split.
    + intros [[post ->]|(pre & post & ->)]; [by exists EmptyString, post|].
      by exists (String c pre), post.
    + intros ([|c' pre] & post & Heq); [left; by exists post|right].
      injection Heq as -> ->. by exists pre, post.
Qed.

Lemma elem_of_inferGenresFromName name genre :
  genre ∈ GameMatcher.inferGenresFromName name ↔
  ∃ words word, (genre, words) ∈ GameMatcher.keywords ∧ word ∈ words
                ∧ JS.includes name word = true.
Proof.
  unfold GameMatcher.inferGenresFromName. rewrite list_elem_of_fmap. split.
  - intros ([genre' words] & -> & [Hsome Hin]%list_elem_of_filter).
    apply Exists_exists in Hsome as (word & Hword & Hincl). by exists words, word.
  - intros (words & word & Hin & Hword & Hincl). exists (genre, words).
    split; [done|]. apply list_elem_of_filter. split; [|done].
    apply Exists_exists. by exists word.
Qed.

(** X9.  A name gets a genre exactly when one of the keywords of the genre
    occurs in it, as it is written in the table; the tags come in the order
    of the table, each once, and a longer name keeps the tags of any part of
    it. *)
Theorem inferGenresFromName_by_substring name :
  (∀ genre, genre ∈ GameMatcher.inferGenresFromName name ↔
     ∃ words word pre post,
       (genre, words) ∈ GameMatcher.keywords ∧ word ∈ words
       ∧ name = (pre ++ word ++ post)%string)
  ∧ GameMatcher.inferGenresFromName name `sublist_of` GameMatcher.keywords.*1
  ∧ NoDup (GameMatcher.inferGenresFromName name)
  ∧ ∀ pre post, GameMatcher.inferGenresFromName name
                ⊆ GameMatcher.inferGenresFromName (pre ++ name ++ post)%string.
Proof.
  assert (GameMatcher.inferGenresFromName name `sublist_of` GameMatcher.keywords.*1)
    as Hsub by apply fmap_sublist, sublist_filter.
  split_and!; [|done| |].
  - intros genre. rewrite elem_of_inferGenresFromName. split.
    + intros (words & word & ? & ? & (pre & post & ->)%includes_substring).
      by exists words, word, pre, post.
    + intros (words & word & pre & post & ? & ? & ->). exists words, word.
      split_and!; [done..|]. apply includes_substring. by exists pre, post.
  - eapply sublist_NoDup; [|exact Hsub].
    apply (bool_decide_unpack _). by vm_compute.
  - intros pre post genre. rewrite !elem_of_inferGenresFromName.
    intros (words & word & ? & ? & (pre' & post' & ->)%includes_substring).
    exists words, word. split_and!; [done..|]. apply includes_substring.
    exists (pre ++ pre')%string, (post' ++ post)%string.
    by rewrite !string_append_assoc.
Qed.

(** ** [formatPlaytime] *)

(** X10.  The label of a playtime: no label of hours for a missing, zero or [NaN]
    playtime; below half an hour, and for any negative value, less than an
    hour; from half an hour on the hours rounded to the nearest, a half
    rounding up, in the singular for one hour only. *)
Theorem formatPlaytime_ranges (m : Z) :
  GameMatcher.formatPlaytime None = "Never played"
  ∧ GameMatcher.formatPlaytime (Some JS.NaN) = "Never played"
  ∧ GameMatcher.formatPlaytime (Some (JS.Num 0)) = "Never played"
  ∧ (m ≠ 0 → m < 30 →
     GameMatcher.formatPlaytime (Some (JS.Num m)) = "Less than 1 hour")%Z
  ∧ (30 ≤ m < 90 → GameMatcher.formatPlaytime (Some (JS.Num m)) = "1 hour")%Z
  ∧ (90 ≤ m →
     GameMatcher.formatPlaytime (Some (JS.Num m))
     = pretty ((m + 30) `div` 60)%Z +:+ " hours")%Z.
Proof.
  assert ((2 * m + Z.of_nat 60) `div` (2 * Z.of_nat 60) = (m + 30) `div` 60)%Z as Hround.
  { replace (2 * m + Z.of_nat 60)%Z with (2 * (m + 30))%Z by lia.
    replace (2 * Z.of_nat 60)%Z with (2 * 60)%Z by lia.
    by rewrite Z.div_mul_cancel_l. }
  split_and!; [done..| | |].
  - intros Hne Hlt. unfold GameMatcher.formatPlaytime, JS.round_div.
    rewrite decide_False, Hround by done.
    rewrite decide_True; [done|]. apply Z.div_lt_upper_bound; lia.
  - intros [Hge Hlt]. unfold GameMatcher.formatPlaytime, JS.round_div.
    rewrite decide_False, Hround by lia.
    assert ((m + 30) `div` 60 = 1)%Z as ->.
    { symmetry. apply (Z.div_unique _ _ _ (m - 30)); lia. }
    done.
  - intros Hge. unfold GameMatcher.formatPlaytime, JS.round_div.
    rewrite decide_False, Hround by lia.
    assert (2 ≤ (m + 30) `div` 60)%Z by (apply Z.div_le_lower_bound; lia).
    rewrite decide_False by lia. by rewrite decide_True by lia.
Qed.

Lemma formatPlaytime_ranges_witness :
  GameMatcher.formatPlaytime None = "Never played"
  ∧ GameMatcher.formatPlaytime (Some JS.NaN) = "Never played"
  ∧ GameMatcher.formatPlaytime (Some (JS.Num 0)) = "Never played"
  ∧ (150 ≠ 0 → 150 < 30 →
     GameMatcher.formatPlaytime (Some (JS.Num 150)) = "Less than 1 hour")%Z
  ∧ (30 ≤ 150 < 90 → GameMatcher.formatPlaytime (Some (JS.Num 150)) = "1 hour")%Z
  ∧ (90 ≤ 150 →
     GameMatcher.formatPlaytime (Some (JS.Num 150))
     = pretty ((150 + 30) `div` 60)%Z +:+ " hours")%Z.
Proof. apply (formatPlaytime_ranges 150). Defined.

Example formatPlaytime_two_and_a_half_hours :
  GameMatcher.formatPlaytime (Some (JS.Num 150)) = "3 hours".
Proof. reflexivity. Qed.

(** * [FriendsManager] *)

Section roster_facts.
Context {K : Type} `{EqDecision K} {V : Type}.
Implicit Types (m : list (K * V)) (k : K) (v : V).

Lemma Map_set_keys m k v : (JS.Map_set m k v).*1 = JS.Set_add m.*1 k.
Proof.
  unfold JS.Set_add. case_decide.
  - by apply Map_set_keys_present.
  - by apply Map_set_keys_fresh.
Qed.

Lemma Map_set_append m k v : k ∉ m.*1 → JS.Map_set m k v = m ++ [(k, v)].
Proof.
  induction m as [|e m IH]; simpl; [done|].
  intros [? ?]%not_elem_of_cons. case_decide; [congruence|]. f_equal. by apply IH.
Qed.

Lemma Map_set_Forall (P : K * V → Prop) m k v :
  Forall P m → P (k, v) → Forall P (JS.Map_set m k v).
Proof.
  intros Hm Hkv. apply Forall_forall. intros e [He| ->]%elem_of_Map_set; [|done].
  by apply (proj1 (Forall_forall _ _) Hm).
Qed.

Lemma Map_delete_keys m k : (JS.Map_delete m k).*1 = JS.Set_delete m.*1 k.
Proof.
  unfold JS.Map_delete, JS.Set_delete. induction m as [|e m IH]; [done|].
  rewrite fmap_cons, !filter_cons. simpl.
  case_decide; [rewrite fmap_cons|]; by rewrite IH.
Qed.

Lemma Set_delete_absent (s : list K) k : k ∉ s → JS.Set_delete s k = s.
Proof.
  unfold JS.Set_delete. induction s as [|x s IH]; [done|].
  intros [? ?]%not_elem_of_cons. rewrite filter_cons, decide_True by done.
  f_equal. by apply IH.
Qed.

Lemma Map_delete_absent m k : k ∉ m.*1 → JS.Map_delete m k = m.
Proof.
  unfold JS.Map_delete. induction m as [|e m IH]; [done|].
  rewrite fmap_cons. intros [? ?]%not_elem_of_cons.
  rewrite filter_cons, decide_True by done. f_equal. by apply IH.
Qed.

Lemma elem_of_Set_delete (s : list K) k x : x ∈ JS.Set_delete s k ↔ x ∈ s ∧ x ≠ k.
Proof. unfold JS.Set_delete. rewrite list_elem_of_filter. tauto. Qed.
End roster_facts.

Lemma filter_ext_elem_of {A} (P Q : A → Prop) `{∀ x, Decision (P x)} `{∀ x, Decision (Q x)}
    (l : list A) :
  (∀ x, x ∈ l → P x ↔ Q x) → filter P l = filter Q l.
Proof.
  induction l as [|x l IH]; intros Hiff; [done|].
  rewrite !filter_cons, IH by (intros; apply Hiff; elem_of_tail).
  destruct (Hiff x); [elem_of_head|].
  destruct (decide (P x)); [by rewrite decide_True by tauto|by rewrite decide_False by tauto].
Qed.

Lemma filter_Forall_all {A} (P : A → Prop) `{∀ x, Decision (P x)} (l : list A) :
  Forall P l → filter P l = l.
Proof.
  induction 1 as [|x l Hx _ IH]; [done|].
  rewrite filter_cons, decide_True by done. by f_equal.
Qed.

Lemma roster_steamIds (roster : list (string * Friend.t)) :
  Forall (λ e, Friend.steamId e.2 = e.1) roster →
  Friend.steamId <$> roster.*2 = roster.*1.
Proof.
  induction 1 as [|e roster He _ IH]; [done|]. rewrite !fmap_cons, IH. by f_equal.
Qed.

Lemma roster_value_key (roster : list (string * Friend.t)) f :
  Forall (λ e, Friend.steamId e.2 = e.1) roster →
  f ∈ roster.*2 → Friend.steamId f ∈ roster.*1.
Proof.
  intros Hkeys Hf. rewrite <-roster_steamIds by done. by apply list_elem_of_fmap_2.
Qed.

(** The roster and the selection after [load]. *)
Lemma load_friends_consistent (roster : list (string * Friend.t)) data :
  NoDup roster.*1 → Forall (λ e, Friend.steamId e.2 = e.1) roster →
  let roster' := foldl (λ friends friend, JS.Map_set friends (Friend.steamId friend) friend)
                       roster data in
  NoDup roster'.*1 ∧ Forall (λ e, Friend.steamId e.2 = e.1) roster'
  ∧ roster.*1 ⊆ roster'.*1.
Proof.
  revert roster. induction data as [|friend data IH]; intros roster Hnodup Hkeys; simpl.
  - done.
  - destruct (IH (JS.Map_set roster (Friend.steamId friend) friend)) as (? & ? & Hsub).
    + rewrite Map_set_keys. by apply NoDup_Set_add.
    + by apply Map_set_Forall.
    + split_and!; [done..|]. etrans; [|exact Hsub].
      rewrite Map_set_keys. intros id Hid. apply elem_of_Set_add. by left.
Qed.

Lemma load_selected_consistent (keys selected ids : list string) (has : string → bool) :
  (∀ id, has id = true → id ∈ keys) → NoDup selected → selected ⊆ keys →
  let selected' := foldl (λ selected id, if has id then JS.Set_add selected id else selected)
                         selected ids in
  NoDup selected' ∧ selected' ⊆ keys.
Proof.
  intros Hhas. revert selected.
  induction ids as [|id ids IH]; intros selected Hnodup Hsub; simpl; [done|].
  apply IH.
  - destruct (has id); [by apply NoDup_Set_add|done].
  - destruct (has id) eqn:Hid; [|done].
    intros x [?| ->]%elem_of_Set_add; [by apply Hsub|by apply Hhas].
Qed.

Lemma load_friends_keys (roster : list (string * Friend.t)) data id :
  id ∈ (foldl (λ friends friend, JS.Map_set friends (Friend.steamId friend) friend)
              roster data).*1
  ↔ id ∈ roster.*1 ∨ id ∈ Friend.steamId <$> data.
Proof.
  revert roster. induction data as [|friend data IH]; intros roster; simpl.
  - rewrite elem_of_nil. tauto.
  - rewrite IH, elem_of_Map_set_keys, elem_of_cons. tauto.
Qed.

Lemma load_consistent m storage :
  FriendsManager.consistent m → FriendsManager.consistent (FriendsManager.load m storage).
Proof.
  intros (Hkeys & Hids & Hsel & Hsub). destruct storage as [data ids].
  unfold FriendsManager.consistent, FriendsManager.load. simpl.
  set (roster' := match data with Some _ => _ | None => _ end).
  assert (NoDup roster'.*1 ∧ Forall (λ e, Friend.steamId e.2 = e.1) roster'
          ∧ (FriendsManager.friends m).*1 ⊆ roster'.*1) as (Hkeys' & Hids' & Hgrow).
  { unfold roster'. destruct data as [data|]; [|done].
    by apply load_friends_consistent. }
  split_and!; [done|done|..]; destruct ids as [ids|].
  - apply (load_selected_consistent roster'.*1); [|done|by etrans].
    intros id. unfold JS.Map_has. by rewrite bool_decide_eq_true.
  - rewrite <-(foldl_fmap JS.Set_add _ roster' fst).
    by apply NoDup_foldl_Set_add.
  - apply (load_selected_consistent roster'.*1); [|done|by etrans].
    intros id. unfold JS.Map_has. by rewrite bool_decide_eq_true.
  - rewrite <-(foldl_fmap JS.Set_add _ roster' fst).
    intros id [?|?]%elem_of_foldl_Set_add; [by apply Hgrow, Hsub|done].
Qed.

Lemma new_consistent : FriendsManager.consistent FriendsManager.new.
Proof. unfold FriendsManager.consistent. simpl. split_and!; [constructor|done|constructor|done]. Qed.

(** X11.  Every operation keeps the roster and the selection consistent: the
    Steam ids of the roster stay pairwise distinct, and the selection stays
    within the roster, as long as [toggleSelection] is given an id of the
    roster. *)
Theorem FriendsManager_stays_consistent m :
  FriendsManager.consistent m →
  NoDup (Friend.steamId <$> FriendsManager.getAllFriends m)
  ∧ (∀ friendData m', FriendsManager.addFriend m friendData = Some m' →
       FriendsManager.consistent m')
  ∧ (∀ steamId, FriendsManager.consistent (FriendsManager.removeFriend m steamId))
  ∧ (∀ steamId, FriendsManager.hasFriend m steamId = true →
       FriendsManager.consistent (FriendsManager.toggleSelection m steamId))
  ∧ (∀ storage, FriendsManager.consistent (FriendsManager.load m storage)).
Proof.
  intros (Hkeys & Hids & Hsel & Hsub). split_and!.
  - unfold FriendsManager.getAllFriends. by rewrite roster_steamIds.
  - intros friendData m'. unfold FriendsManager.addFriend, JS.Map_has.
    case_bool_decide as Hhas; [done|]. intros [= <-].
    unfold FriendsManager.consistent. simpl. rewrite Map_set_keys.
    split_and!.
    + by apply NoDup_Set_add.
    + by apply Map_set_Forall.
    + by apply NoDup_Set_add.
    + intros id. rewrite !elem_of_Set_add. intros [?| ->]; [left; by apply Hsub|by right].
  - intros steamId. unfold FriendsManager.consistent, FriendsManager.removeFriend. simpl.
    rewrite Map_delete_keys. split_and!.
    + by apply NoDup_filter.
    + apply Forall_forall. intros e [_ He]%list_elem_of_filter.
      by apply (proj1 (Forall_forall _ _) Hids).
    + by apply NoDup_filter.
    + intros id. rewrite !elem_of_Set_delete. intros [? ?]. split; [by apply Hsub|done].
  - intros steamId Hhas%bool_decide_eq_true.
    unfold FriendsManager.consistent, FriendsManager.toggleSelection.
    case_bool_decide; simpl; (split_and!; [done|done|..]).
    + by apply NoDup_filter.
    + intros id [? _]%elem_of_Set_delete. by apply Hsub.
    + by apply NoDup_Set_add.
    + intros id [?| ->]%elem_of_Set_add; [by apply Hsub|done].
  - intros storage. by apply load_consistent.
Qed.

Lemma FriendsManager_stays_consistent_witness :
  NoDup (Friend.steamId <$> FriendsManager.getAllFriends Sample.roster)
  ∧ (∀ friendData m', FriendsManager.addFriend Sample.roster friendData = Some m' →
       FriendsManager.consistent m')
  ∧ (∀ steamId, FriendsManager.consistent (FriendsManager.removeFriend Sample.roster steamId))
  ∧ (∀ steamId, FriendsManager.hasFriend Sample.roster steamId = true →
       FriendsManager.consistent (FriendsManager.toggleSelection Sample.roster steamId))
  ∧ (∀ storage, FriendsManager.consistent (FriendsManager.load Sample.roster storage)).
Proof.
  apply (FriendsManager_stays_consistent Sample.roster).
  unfold FriendsManager.consistent. simpl.
  split_and!; apply (bool_decide_unpack _); vm_compute; reflexivity.
Defined.

(** X12.  [addFriend] throws exactly for a Steam id that the roster has; when it
    does not throw, the friend stands last in the roster and is selected. *)
Theorem addFriend_appends_and_selects m friendData :
  (FriendsManager.addFriend m friendData = None
   ↔ FriendsManager.hasFriend m (Friend.steamId friendData) = true)
  ∧ ∀ m', FriendsManager.addFriend m friendData = Some m' →
      FriendsManager.getAllFriends m' = FriendsManager.getAllFriends m ++ [friendData]
      ∧ FriendsManager.getFriendCount m' = S (FriendsManager.getFriendCount m)
      ∧ FriendsManager.hasFriend m' (Friend.steamId friendData) = true
      ∧ FriendsManager.isSelected m' (Friend.steamId friendData) = true
      ∧ (FriendsManager.consistent m →
         FriendsManager.getSelectedFriends m'
         = FriendsManager.getSelectedFriends m ++ [friendData]).
Proof.
  unfold FriendsManager.addFriend, FriendsManager.hasFriend. split.
  - by destruct (JS.Map_has _ _).
  - intros m'. unfold JS.Map_has. case_bool_decide as Hhas; [done|]. intros [= <-].
    unfold FriendsManager.getAllFriends, FriendsManager.getFriendCount,
      FriendsManager.isSelected, FriendsManager.getSelectedFriends. simpl.
    rewrite Map_set_append by done. split_and!.
    + by rewrite fmap_app.
    + rewrite length_app. simpl. lia.
    + apply bool_decide_eq_true. rewrite fmap_app. set_solver.
    + apply bool_decide_eq_true, elem_of_Set_add. by right.
    + intros (_ & Hids & _). unfold FriendsManager.getAllFriends. simpl.
      rewrite fmap_app, filter_app. f_equal.
      * apply filter_ext_elem_of. intros f Hf. rewrite elem_of_Set_add.
        split; [|by left]. intros [?|Heq]; [done|].
        destruct Hhas. rewrite <-Heq. by apply roster_value_key.
      * simpl. rewrite filter_cons, decide_True; [done|].
        apply elem_of_Set_add. by right.
Qed.

(** X13.  [removeFriend] takes the friend out of the roster and out of the
    selection and leaves the other friends where they are; for an id that the
    roster does not have it changes nothing. *)
Theorem removeFriend_removes m steamId :
  FriendsManager.consistent m →
  FriendsManager.getAllFriends (FriendsManager.removeFriend m steamId)
  = filter (λ f, Friend.steamId f ≠ steamId) (FriendsManager.getAllFriends m)
  ∧ FriendsManager.getSelectedFriends (FriendsManager.removeFriend m steamId)
    = filter (λ f, Friend.steamId f ≠ steamId) (FriendsManager.getSelectedFriends m)
  ∧ FriendsManager.hasFriend (FriendsManager.removeFriend m steamId) steamId = false
  ∧ FriendsManager.isSelected (FriendsManager.removeFriend m steamId) steamId = false
  ∧ (FriendsManager.hasFriend m steamId = false → FriendsManager.removeFriend m steamId = m).
Proof.
  intros (Hkeys & Hids & Hsel & Hsub).
  assert (FriendsManager.getAllFriends (FriendsManager.removeFriend m steamId)
          = filter (λ f, Friend.steamId f ≠ steamId) (FriendsManager.getAllFriends m))
    as Hall.
  { unfold FriendsManager.getAllFriends, FriendsManager.removeFriend, JS.Map_delete. simpl.
    clear Hkeys Hsub. induction Hids as [|e roster He _ IH]; [done|].
    rewrite fmap_cons, !filter_cons. simpl. rewrite He.
    case_decide; [rewrite fmap_cons|]; by rewrite IH. }
  split_and!; [done| | | |].
  - unfold FriendsManager.getSelectedFriends. rewrite Hall.
    rewrite !list_filter_filter.
    apply list_filter_iff. intros f. simpl. rewrite elem_of_Set_delete. tauto.
  - unfold FriendsManager.hasFriend, JS.Map_has. apply bool_decide_eq_false. simpl.
    rewrite Map_delete_keys, elem_of_Set_delete. tauto.
  - unfold FriendsManager.isSelected. apply bool_decide_eq_false. simpl.
    rewrite elem_of_Set_delete. tauto.
  - unfold FriendsManager.hasFriend, JS.Map_has. intros Hhas%bool_decide_eq_false.
    unfold FriendsManager.removeFriend.
    rewrite Map_delete_absent, Set_delete_absent; [by destruct m|..|done].
    intros Hin. by apply Hhas, Hsub.
Qed.

Lemma removeFriend_removes_witness :
  FriendsManager.getAllFriends (FriendsManager.removeFriend Sample.roster "76561198000000001")
  = filter (λ f, Friend.steamId f ≠ "76561198000000001"%string)
           (FriendsManager.getAllFriends Sample.roster)
  ∧ FriendsManager.getSelectedFriends
      (FriendsManager.removeFriend Sample.roster "76561198000000001")
    = filter (λ f, Friend.steamId f ≠ "76561198000000001"%string)
             (FriendsManager.getSelectedFriends Sample.roster)
  ∧ FriendsManager.hasFriend
      (FriendsManager.removeFriend Sample.roster "76561198000000001")
      "76561198000000001" = false
  ∧ FriendsManager.isSelected
      (FriendsManager.removeFriend Sample.roster "76561198000000001")
      "76561198000000001" = false
  ∧ (FriendsManager.hasFriend Sample.roster "76561198000000001" = false →
     FriendsManager.removeFriend Sample.roster "76561198000000001" = Sample.roster).
Proof.
  apply (removeFriend_removes Sample.roster "76561198000000001").
  unfold FriendsManager.consistent. simpl.
  split_and!; apply (bool_decide_unpack _); vm_compute; reflexivity.
Defined.

(** X14.  [toggleSelection] flips the selection of its id and of no other id, and
    toggling twice gives back the same selected friends. *)
Theorem toggleSelection_flips m steamId :
  FriendsManager.isSelected (FriendsManager.toggleSelection m steamId) steamId
  = negb (FriendsManager.isSelected m steamId)
  ∧ (∀ other, other ≠ steamId →
       FriendsManager.isSelected (FriendsManager.toggleSelection m steamId) other
       = FriendsManager.isSelected m other)
  ∧ FriendsManager.getAllFriends (FriendsManager.toggleSelection m steamId)
    = FriendsManager.getAllFriends m
  ∧ FriendsManager.getSelectedFriends
      (FriendsManager.toggleSelection (FriendsManager.toggleSelection m steamId) steamId)
    = FriendsManager.getSelectedFriends m.
Proof.
  assert (∀ m id other,
    other ∈ FriendsManager.selected (FriendsManager.toggleSelection m id)
    ↔ if decide (other = id) then other ∉ FriendsManager.selected m
      else other ∈ FriendsManager.selected m) as Htoggle.
  { intros m' id other. unfold FriendsManager.toggleSelection.
    case_bool_decide as Hin; simpl.
    - rewrite elem_of_Set_delete. case_decide; [subst|]; tauto.
    - rewrite elem_of_Set_add. case_decide; [subst|]; tauto. }
  assert (∀ m id, FriendsManager.friends (FriendsManager.toggleSelection m id)
                  = FriendsManager.friends m) as Hfriends.
  { intros m' id. unfold FriendsManager.toggleSelection. by case_bool_decide. }
  unfold FriendsManager.isSelected, FriendsManager.getSelectedFriends,
    FriendsManager.getAllFriends.
  split_and!.
  - pose proof (Htoggle m steamId steamId) as Hflip. rewrite decide_True in Hflip by done.
    destruct (bool_decide_reflect (steamId ∈ FriendsManager.selected m)); simpl.
    + apply bool_decide_eq_false. tauto.
    + apply bool_decide_eq_true. tauto.
  - intros other Hne. apply bool_decide_ext. by rewrite Htoggle, decide_False.
  - by rewrite Hfriends.
  - rewrite !Hfriends. apply list_filter_iff. intros f.
    rewrite Htoggle.
    destruct (decide (Friend.steamId f = steamId)).
    + rewrite Htoggle, decide_True by done.
      destruct (decide (Friend.steamId f ∈ FriendsManager.selected m)); tauto.
    + by rewrite Htoggle, decide_False.
Qed.

(** X15.  In a consistent state the selected friends are as many as the selected
    ids: the number that decides whether the match button is shown is the
    number that [handleFindMatches] checks. *)
Theorem getSelectedCount_is_the_number_of_selected_friends m :
  FriendsManager.consistent m →
  length (FriendsManager.getSelectedFriends m) = FriendsManager.getSelectedCount m.
Proof.
  intros (Hkeys & Hids & Hsel & Hsub).
  unfold FriendsManager.getSelectedFriends, FriendsManager.getSelectedCount,
    FriendsManager.getAllFriends.
  rewrite <-(length_fmap Friend.steamId).
  assert (Friend.steamId
            <$> filter (λ f, Friend.steamId f ∈ FriendsManager.selected m)
                       (FriendsManager.friends m).*2
          = filter (λ id, id ∈ FriendsManager.selected m) (FriendsManager.friends m).*1)
    as ->.
  { clear Hkeys Hsub. induction Hids as [|e roster He _ IH]; [done|].
    rewrite !fmap_cons, !filter_cons, He.
    case_decide; [rewrite fmap_cons, He|]; by rewrite IH. }
  apply Permutation_length, NoDup_Permutation; [by apply NoDup_filter|done|].
  intros id. rewrite list_elem_of_filter. split; [tauto|]. intros Hid.
  split; [done|by apply Hsub].
Qed.

Lemma getSelectedCount_is_the_number_of_selected_friends_witness :
  length (FriendsManager.getSelectedFriends Sample.roster)
  = FriendsManager.getSelectedCount Sample.roster.
Proof.
  apply (getSelectedCount_is_the_number_of_selected_friends Sample.roster).
  unfold FriendsManager.consistent. simpl.
  split_and!; apply (bool_decide_unpack _); vm_compute; reflexivity.
Defined.

(** Toggling an id that the roster does not have selects nobody but is
    counted. *)
Example toggleSelection_of_an_unknown_id :
  let m := FriendsManager.toggleSelection Sample.roster "76561198000000099" in
  FriendsManager.getSelectedCount m = 2
  ∧ length (FriendsManager.getSelectedFriends m) = 1.
Proof. split; reflexivity. Qed.

(** X16.  What [save] writes, [load] reads back: a fresh manager that loads the
    saved items is in the saved state.  Without a stored selection [load]
    selects every friend of the roster. *)
Theorem load_after_save m :
  FriendsManager.consistent m →
  FriendsManager.load FriendsManager.new (FriendsManager.save m) = m
  ∧ ∀ data,
      let loaded := FriendsManager.load FriendsManager.new (Storage.mk (Some data) None) in
      FriendsManager.getSelectedFriends loaded = FriendsManager.getAllFriends loaded
      ∧ ∀ f, f ∈ data → FriendsManager.hasFriend loaded (Friend.steamId f) = true.
Proof.
  intros (Hkeys & Hids & Hsel & Hsub). split.
  - unfold FriendsManager.load, FriendsManager.save, FriendsManager.getAllFriends. simpl.
    assert (foldl (λ friends friend, JS.Map_set friends (Friend.steamId friend) friend)
                  [] (FriendsManager.friends m).*2 = FriendsManager.friends m) as ->.
    { rewrite <-(app_nil_l (FriendsManager.friends m)) at 2.
      assert (NoDup ((@nil (string * Friend.t)) ++ FriendsManager.friends m).*1) as Hnodup
        by done.
      revert Hnodup. generalize (@nil (string * Friend.t)). clear Hkeys Hsub.
      induction Hids as [|[k f] roster He _ IH]; intros acc Hnodup; simpl.
      - by rewrite app_nil_r.
      - simpl in He. subst k. rewrite Map_set_append.
        + rewrite IH; [by rewrite <-app_assoc|]. by rewrite <-app_assoc.
        + rewrite fmap_app in Hnodup. apply NoDup_app in Hnodup as (_ & Hfresh & _).
          intros Hin. apply (Hfresh _ Hin). simpl. elem_of_head. }
    assert (foldl (λ selected id,
                     if JS.Map_has (FriendsManager.friends m) id
                     then JS.Set_add selected id else selected)
                  [] (FriendsManager.selected m) = FriendsManager.selected m) as ->.
    { rewrite <-(new_Set_NoDup (FriendsManager.selected m)) at 2 by done.
      unfold JS.new_Set. generalize (@nil string).
      induction (FriendsManager.selected m) as [|id ids IH]; intros acc; simpl; [done|].
      assert (JS.Map_has (FriendsManager.friends m) id = true) as ->
        by (apply bool_decide_eq_true, Hsub; elem_of_head).
      apply IH; [by apply NoDup_cons in Hsel as [_ ?]|].
      intros x Hx. apply Hsub. elem_of_tail. }
    by destruct m.
  - intros data loaded.
    assert (FriendsManager.consistent loaded) as (Hkeys' & Hids' & _).
    { apply load_consistent, new_consistent. }
    assert (FriendsManager.selected loaded = (FriendsManager.friends loaded).*1) as Hall.
    { unfold loaded, FriendsManager.load. simpl.
      rewrite <-(foldl_fmap JS.Set_add _ _ fst). by apply new_Set_NoDup. }
    split.
    + unfold FriendsManager.getSelectedFriends, FriendsManager.getAllFriends.
      rewrite Hall. apply filter_Forall_all, Forall_forall.
      intros f Hf. by apply roster_value_key.
    + intros f Hf. unfold FriendsManager.hasFriend, JS.Map_has.
      apply bool_decide_eq_true. unfold loaded, FriendsManager.load. simpl.
      apply load_friends_keys. right. by apply list_elem_of_fmap_2.
Qed.

Lemma load_after_save_witness :
  FriendsManager.load FriendsManager.new (FriendsManager.save Sample.roster) = Sample.roster
  ∧ ∀ data,
      let loaded := FriendsManager.load FriendsManager.new (Storage.mk (Some data) None) in
      FriendsManager.getSelectedFriends loaded = FriendsManager.getAllFriends loaded
      ∧ ∀ f, f ∈ data → FriendsManager.hasFriend loaded (Friend.steamId f) = true.
Proof.
  apply (load_after_save Sample.roster).
  unfold FriendsManager.consistent. simpl.
  split_and!; apply (bool_decide_unpack _); vm_compute; reflexivity.
Defined.

(** * [SteamAPI]: reading what the user typed *)

(** ** Strings *)

Lemma string_app_cons c (s t : string) : (String c s ++ t = String c (s ++ t))%string.
Proof. done. Qed.

Lemma string_app_nil_r (s : string) : (s ++ "" = s)%string.
Proof. induction s as [|c s IH]; [done|]. rewrite string_app_cons. by f_equal. Qed.

Lemma stripPrefix_Some literal s rest :
  JS.stripPrefix literal s = Some rest ↔ s = (literal ++ rest)%string.
Proof.
  revert s. induction literal as [|a literal IH]; intros s.
  - change ("" ++ rest)%string with rest. destruct s; cbn [JS.stripPrefix]; split; congruence.
  - destruct s as [|b s]; [split; [done|by rewrite string_app_cons]|].
    cbn [JS.stripPrefix]. rewrite string_app_cons. case_decide as Hab.
    + subst b. rewrite IH. split; [by intros ->|by intros [= ->]].
    + split; [done|]. by intros [= -> _].
Qed.


Lemma matchAfter_here literal group rest capture :
  group rest = Some capture →
  JS.matchAfter literal group (literal ++ rest) = Some capture.
Proof.
  intros Hgroup.
  assert (JS.stripPrefix literal (literal ++ rest) = Some rest) as Hstrip
    by by apply stripPrefix_Some.
  destruct (literal ++ rest)%string; cbn [JS.matchAfter]; by rewrite Hstrip; simpl; rewrite Hgroup.
Qed.

Lemma matchAfter_skip literal group c s :
  JS.stripPrefix literal (String c s) = None →
  JS.matchAfter literal group (String c s) = JS.matchAfter literal group s.
Proof. intros Hnone. cbn [JS.matchAfter]. by rewrite Hnone. Qed.




Lemma substring_app_length (s rest : string) :
  String.substring 0 (String.length s) (s ++ rest) = s.
Proof.
  induction s as [|c s IH]; [by destruct rest|].
  rewrite string_app_cons. simpl. by rewrite IH.
Qed.


(** ** White space *)

Lemma isDigit_not_white c : SteamAPI.isDigit c = true → JS.isWhiteSpace c = false.
Proof. by destruct c as [[] [] [] [] [] [] [] []]. Qed.

Lemma allDigits_solid s : SteamAPI.allDigits s = true → Spec.solid s = true.
Proof.
  induction s as [|c s IH]; [done|]. simpl. intros [Hc Hs]%andb_true_iff.
  by rewrite (isDigit_not_white c Hc), IH.
Qed.

Lemma trimStart_blank (ws s : string) :
  Spec.blank ws = true → JS.trimStart (ws ++ s) = JS.trimStart s.
Proof.
  induction ws as [|c ws IH]; [done|]. simpl. intros [Hc Hws]%andb_true_iff.
  rewrite ?string_app_cons. simpl. rewrite Hc. by apply IH.
Qed.

Lemma trimStart_solid (s rest : string) :
  s ≠ EmptyString → Spec.solid s = true → JS.trimStart (s ++ rest) = (s ++ rest)%string.
Proof.
  destruct s as [|c s]; [done|]. simpl. intros _ [Hc _]%andb_true_iff.
  rewrite ?string_app_cons. simpl. by destruct (JS.isWhiteSpace c).
Qed.

Lemma trimEnd_blank (ws : string) : Spec.blank ws = true → JS.trimEnd ws = EmptyString.
Proof.
  induction ws as [|c ws IH]; [done|]. simpl. intros [Hc Hws]%andb_true_iff.
  by rewrite IH, Hc.
Qed.

Lemma trimEnd_solid (s rest : string) :
  Spec.solid s = true → JS.trimEnd (s ++ rest) = (s ++ JS.trimEnd rest)%string.
Proof.
  induction s as [|c s IH]; [done|]. simpl. intros [Hc Hs]%andb_true_iff.
  rewrite ?string_app_cons. simpl. rewrite IH by done.
  destruct (s ++ JS.trimEnd rest)%string eqn:Heq; [|done].
  by destruct (JS.isWhiteSpace c).
Qed.

Lemma solid_app (s t : string) : Spec.solid (s ++ t) = Spec.solid s && Spec.solid t.
Proof.
  induction s as [|c s IH]; [done|]. rewrite string_app_cons. simpl.
  rewrite IH. by rewrite andb_assoc.
Qed.

Lemma trim_solid (s rest : string) :
  s ≠ EmptyString → Spec.solid s = true → JS.trim (s ++ rest) = (s ++ JS.trimEnd rest)%string.
Proof.
  intros Hs Hsolid. unfold JS.trim. rewrite trimStart_solid by done.
  by apply trimEnd_solid.
Qed.

(** ** The two patterns *)

Lemma isSteamID64_length s : SteamAPI.isSteamID64 s = true → String.length s = 17.
Proof. unfold SteamAPI.isSteamID64. by intros [?%Nat.eqb_eq _]%andb_true_iff. Qed.

Lemma isSteamID64_solid s : SteamAPI.isSteamID64 s = true → Spec.solid s = true.
Proof.
  unfold SteamAPI.isSteamID64. intros [_ ?]%andb_true_iff. by apply allDigits_solid.
Qed.

Lemma isSteamID64_first c s : SteamAPI.isDigit c = false → SteamAPI.isSteamID64 (String c s) = false.
Proof.
  intros Hc. unfold SteamAPI.isSteamID64. cbn [SteamAPI.allDigits]. rewrite Hc.
  apply andb_false_r.
Qed.


Lemma idGroup_app digits post :
  SteamAPI.isSteamID64 digits = true → SteamAPI.idGroup (digits ++ post) = Some digits.
Proof.
  intros Hid. unfold SteamAPI.idGroup.
  rewrite <-(isSteamID64_length digits Hid), substring_app_length. by rewrite Hid.
Qed.





(** X18.  An id of seventeen digits, typed with white space
    around it, is returned as it is: the Steam service is not asked. *)
Theorem getSteamID_of_an_id (before steamId after : string) :
  SteamAPI.isSteamID64 steamId = true →
  Spec.blank before = true → Spec.blank after = true →
  SteamAPI.getSteamID (before ++ steamId ++ after) = SteamAPI.Direct steamId.
Proof.
  intros Hid Hbefore Hafter. unfold SteamAPI.getSteamID.
  assert (JS.trim (before ++ steamId ++ after) = steamId) as ->; [|by rewrite Hid].
  unfold JS.trim. rewrite trimStart_blank by done.
  assert (steamId ≠ EmptyString) by (by intros ->).
  rewrite trimStart_solid, trimEnd_solid, trimEnd_blank by auto using isSteamID64_solid.
  apply string_app_nil_r.
Qed.

Lemma getSteamID_of_an_id_witness :
  SteamAPI.getSteamID "  76561197960287930 " = SteamAPI.Direct "76561197960287930".
Proof.
  apply (getSteamID_of_an_id "  " "76561197960287930" " "); reflexivity.
Defined.

(** X19.  The address of a profile by number,
    [steamcommunity.com/profiles/] and seventeen digits, with or without
    the scheme and whatever follows the digits, gives these digits: the
    Steam service is not asked. *)
Theorem getSteamID_of_a_profile_address (scheme steamId rest : string) :
  scheme ∈ ["https://"; "http://"; ""] →
  SteamAPI.isSteamID64 steamId = true →
  SteamAPI.getSteamID (scheme ++ "steamcommunity.com/profiles/" ++ steamId ++ rest)
  = SteamAPI.Direct steamId.
Proof.
  intros Hscheme Hid. unfold SteamAPI.getSteamID.
  assert (JS.trim (scheme ++ "steamcommunity.com/profiles/" ++ steamId ++ rest)
          = (scheme ++ "steamcommunity.com/profiles/" ++ steamId ++ JS.trimEnd rest)%string)
    as ->.
  { rewrite <-!string_append_assoc. apply trim_solid.
    - repeat (apply elem_of_cons in Hscheme as [->|Hscheme]); [done..|].
      by apply elem_of_nil in Hscheme.
    - rewrite solid_app, (isSteamID64_solid _ Hid), andb_true_r.
      repeat (apply elem_of_cons in Hscheme as [->|Hscheme]); [done..|].
      by apply elem_of_nil in Hscheme. }
  assert (SteamAPI.isSteamID64
            (scheme ++ "steamcommunity.com/profiles/" ++ steamId ++ JS.trimEnd rest) = false)
    as ->.
  { repeat (apply elem_of_cons in Hscheme as [->|Hscheme]);
      [by apply isSteamID64_first..|].
    by apply elem_of_nil in Hscheme. }
  assert (JS.matchAfter "steamcommunity.com/profiles/" SteamAPI.idGroup
            (scheme ++ "steamcommunity.com/profiles/" ++ steamId ++ JS.trimEnd rest)
          = Some steamId) as ->; [|done].
  assert (JS.matchAfter "steamcommunity.com/profiles/" SteamAPI.idGroup
            ("steamcommunity.com/profiles/" ++ steamId ++ JS.trimEnd rest)
          = Some steamId) as Hhere
    by by apply matchAfter_here, idGroup_app.
  repeat (apply elem_of_cons in Hscheme as [->|Hscheme]);
    [cbn [String.append]; by rewrite ?matchAfter_skip by reflexivity..|].
  by apply elem_of_nil in Hscheme.
Qed.

Lemma getSteamID_of_a_profile_address_witness :
  SteamAPI.getSteamID "https://steamcommunity.com/profiles/76561197960287930/games"
  = SteamAPI.Direct "76561197960287930".
Proof.
  apply (getSteamID_of_a_profile_address "https://" "76561197960287930" "/games").
  - apply (bool_decide_unpack _). reflexivity.
  - reflexivity.
Defined.





(** ** [getMultipleGameDetails] *)

Lemma foldl_storeDetails results (batchResults : list (Z * option GameDetails.t)) :
  foldl SteamAPI.storeDetails results batchResults
  = foldl (λ m e, JS.Map_set m e.1 e.2) results
      (omap (λ r, (r.1,.) <$> r.2) batchResults).
Proof.
  revert results. induction batchResults as [|[appId [details|]] rs IH]; intros results;
    [done|..]; cbn [foldl omap]; simpl; apply IH.
Qed.

Lemma getMultipleGameDetails_from_results fuel getGameDetails appIds i st :
  length appIds ≤ i + SteamAPI.batchSize * fuel →
  SteamAPI.results (SteamAPI.getMultipleGameDetails_from fuel getGameDetails appIds i st)
  = foldl SteamAPI.storeDetails (SteamAPI.results st)
      (imap (λ k appId, (appId, getGameDetails (i + k))) (drop i appIds)).
Proof.
  revert i st. induction fuel as [|fuel IH]; intros i st Hfuel.
  - rewrite drop_ge by lia. done.
  - cbn [SteamAPI.getMultipleGameDetails_from]. case_decide as Hi.
    + rewrite IH by (unfold SteamAPI.batchSize in *; lia). cbn [SteamAPI.results].
      symmetry. rewrite <-(take_drop SteamAPI.batchSize (drop i appIds)) at 1.
      rewrite imap_app, foldl_app, drop_drop. f_equal.
      unfold SteamAPI.batchSize in *.
      destruct (decide (length appIds ≤ i + 5)) as [Hend|Hmore].
      * by rewrite (drop_ge appIds (i + 5)) by lia.
      * apply imap_ext. intros k appId _. simpl. do 2 f_equal.
        rewrite length_take, length_drop. lia.
    + rewrite drop_ge by lia. done.
Qed.

Lemma batches_step (n i : nat) :
  i < n → (n - i + 4) `div` 5 = S ((n - (i + 5) + 4) `div` 5).
Proof.
  intros Hi. destruct (decide (n - i < 5)) as [Hlast|Hmore].
  - replace (n - (i + 5) + 4) with 4 by lia.
    change (4 `div` 5) with 0. symmetry. apply (Nat.div_unique _ _ _ (n - i - 1)); lia.
  - replace (n - i + 4) with (n - (i + 5) + 4 + 1 * 5) by lia.
    rewrite Nat.div_add by done. lia.
Qed.

Lemma getMultipleGameDetails_from_progress fuel getGameDetails appIds i st :
  length appIds ≤ i + SteamAPI.batchSize * fuel →
  let n := length appIds in
  let run := SteamAPI.getMultipleGameDetails_from fuel getGameDetails appIds i st in
  SteamAPI.progress run
  = SteamAPI.progress st
    ++ ((λ j, (min (i + 5 * (j + 1)) n, n)) <$> seq 0 ((n - i + 4) `div` 5))
  ∧ SteamAPI.delays run = SteamAPI.delays st + ((n - i + 4) `div` 5 - 1).
Proof.
  intros Hfuel n. revert i st Hfuel. induction fuel as [|fuel IH]; intros i st Hfuel run.
  - subst run. replace (n - i) with 0 by (subst n; lia). change ((0 + 4) `div` 5) with 0.
    simpl. by rewrite app_nil_r, Nat.add_0_r.
  - subst run. cbn [SteamAPI.getMultipleGameDetails_from]. fold n. case_decide as Hi.
    + destruct (IH (i + SteamAPI.batchSize)
                  (SteamAPI.mkFetched
                     (foldl SteamAPI.storeDetails (SteamAPI.results st)
                        (imap (λ k appId, (appId, getGameDetails (i + k)))
                           (take SteamAPI.batchSize (drop i appIds))))
                     (SteamAPI.progress st ++ [(min (i + SteamAPI.batchSize) n, n)])
                     (if decide (i + SteamAPI.batchSize < n)
                      then S (SteamAPI.delays st) else SteamAPI.delays st)))
        as [-> ->]; [unfold SteamAPI.batchSize in *; lia|].
      cbn [SteamAPI.progress SteamAPI.delays]. unfold SteamAPI.batchSize.
      rewrite (batches_step n i Hi). split.
      * rewrite <-app_assoc. f_equal. cbn [seq fmap list_fmap app]. f_equal.
        rewrite <-fmap_S_seq, <-list_fmap_compose. apply list_fmap_ext.
        intros _ j _. simpl. do 2 f_equal. lia.
      * case_decide as Hmore.
        -- assert (1 ≤ (n - (i + 5) + 4) `div` 5)
             by (apply Nat.div_le_lower_bound; lia).
           lia.
        -- replace (n - (i + 5)) with 0 by lia. change ((0 + 4) `div` 5) with 0. lia.
    + replace (n - i) with 0 by lia. change ((0 + 4) `div` 5) with 0.
      simpl. by rewrite app_nil_r, Nat.add_0_r.
Qed.

(** X22.  The batches do not show in the result of
    [getMultipleGameDetails]: the map is the one built by storing, one call
    after the other in the order of [appIds], the details of every call
    that gave some; a call that throws or gives [null] stores nothing. *)
Theorem getMultipleGameDetails_results getGameDetails appIds :
  SteamAPI.results (SteamAPI.getMultipleGameDetails getGameDetails appIds)
  = JS.new_Map
      (omap (λ r, (r.1,.) <$> r.2) (imap (λ k appId, (appId, getGameDetails k)) appIds)).
Proof.
  unfold SteamAPI.getMultipleGameDetails.
  rewrite getMultipleGameDetails_from_results by (unfold SteamAPI.batchSize; lia).
  apply foldl_storeDetails.
Qed.

(** X23.  [getMultipleGameDetails] reports its progress once
    for every batch of five, the number of calls made so far and the
    number of all; the last report, when there is one, gives the full
    number; it waits between two batches and not after the last. *)
Theorem getMultipleGameDetails_progress getGameDetails appIds :
  let n := length appIds in
  let run := SteamAPI.getMultipleGameDetails getGameDetails appIds in
  SteamAPI.progress run = (λ j, (min (5 * (j + 1)) n, n)) <$> seq 0 ((n + 4) `div` 5)
  ∧ (n ≠ 0 → last (SteamAPI.progress run) = Some (n, n))
  ∧ SteamAPI.delays run = (n + 4) `div` 5 - 1.
Proof.
  intros n run.
  destruct (getMultipleGameDetails_from_progress (length appIds) getGameDetails appIds 0
              (SteamAPI.mkFetched [] [] 0)) as [Hprogress Hdelays];
    [unfold SteamAPI.batchSize; lia|].
  change (SteamAPI.getMultipleGameDetails_from _ _ _ _ _) with run in Hprogress, Hdelays.
  change (length appIds) with n in Hprogress, Hdelays.
  rewrite Nat.sub_0_r in Hprogress, Hdelays.
  cbn [SteamAPI.progress SteamAPI.delays app Nat.add] in Hprogress, Hdelays.
  split_and!; [done| |done].
  intros Hn. rewrite Hprogress.
  assert (∃ b, (n + 4) `div` 5 = S b ∧ n ≤ 5 * (b + 1)) as (b & -> & Hb).
  { exists ((n + 4) `div` 5 - 1).
    assert (1 ≤ (n + 4) `div` 5) by (apply Nat.div_le_lower_bound; lia).
    split; [lia|].
    pose proof (Nat.div_mod_eq (n + 4) 5) as Heq.
    pose proof (Nat.mod_upper_bound (n + 4) 5). lia. }
  rewrite seq_S, fmap_app, fmap_cons, fmap_nil, last_snoc. do 2 f_equal. lia.
Qed.
